(** * Network generation engine

    A shallow embedding of [network-agents.py]: the three link-formation
    generators ([generate_random_graph],
    [generate_preferential_attachment_graph], [generate_homophily_graph])
    and the dispatcher [main], together with the properties of the
    generated graphs.

    Modelling choices.
    - A [networkx.DiGraph] is a record: the node list in insertion order
      (the order [G.degree()] iterates in), the per-node [group] attribute
      and a finite map from ordered pairs to the edge's data dictionary,
      of which only the ['weight'] key is ever used.
    - Python's global [random] module is a stream of draws read through a
      cursor.  [random.random()] returns the draw's unit float,
      [random.randrange(n)] reduces the draw's integer modulo [n] and
      raises [ValueError] for [n <= 0].  Floats are read as the rationals
      they denote; [random.uniform] is computed exactly.
    - Exceptions, printed lines and written files are explicit: a
      computation maps a world to an outcome.
    - The [while] loop of dynamic preferential attachment takes fuel; an
      exhausted loop is the outcome [Timeout].
    - [networkx.barabasi_albert_graph] is library code: the generators
      take it as a parameter, and the statements that depend on what it
      returns assume its documented contract.
    - The configuration is a record of optional, typed entries; the
      serialisers behind [main] always succeed. *)

From Stdlib Require Import ZArith QArith Lia Ascii.
From stdpp Require Import base option list list_numbers gmap sets strings.

Local Open Scope Z_scope.

(** ** Python values and the graph container *)

(** What the ['weight'] key of an edge can hold. *)
Inductive value :=
  | VNone
  | VInt (k : Z)
  | VFloat (q : Q).

Inductive exn :=
  | ValueError
  | ZeroDivisionError
  | KeyError
  | TypeError
  | NetworkXError.

(** An edge's data dictionary: [None] when it has no ['weight'] key. *)
Abbreviation edge_data := (option value).

Record DiGraph := mkDiGraph {
  nodes : list Z;
  node_group : gmap Z Z;
  adj : gmap (Z * Z) edge_data
}.

Definition empty_graph : DiGraph := mkDiGraph [] ∅ ∅.

Definition add_node (n : Z) (G : DiGraph) : DiGraph :=
  if decide (n ∈ nodes G) then G
  else mkDiGraph (nodes G ++ [n]) (node_group G) (adj G).

Definition add_nodes_from (l : list Z) (G : DiGraph) : DiGraph :=
  foldl (λ G n, add_node n G) G l.

Definition has_edge (G : DiGraph) (u v : Z) : bool :=
  bool_decide (is_Some (adj G !! (u, v))).

(** [G.add_edge(u, v)] when [kw = None], [G.add_edge(u, v, weight=x)] when
    [kw = Some x]: both endpoints become nodes, and the keyword updates
    the data dictionary of the edge, which is created when missing. *)
Definition add_edge (u v : Z) (kw : option value) (G : DiGraph) : DiGraph :=
  let G1 := add_node v (add_node u G) in
  let old := default None (adj G !! (u, v)) in
  let data := match kw with Some x => Some x | None => old end in
  mkDiGraph (nodes G1) (node_group G1) (<[(u, v) := data]> (adj G)).

Definition set_node_attributes (groups : gmap Z Z) (G : DiGraph) : DiGraph :=
  mkDiGraph (nodes G)
    (filter (λ kv, kv.1 ∈ nodes G) groups ∪ node_group G) (adj G).

Definition number_of_nodes (G : DiGraph) : Z := Z.of_nat (length (nodes G)).
Definition number_of_edges (G : DiGraph) : Z := Z.of_nat (size (adj G)).

Definition out_degree (G : DiGraph) (n : Z) : Z :=
  Z.of_nat (size (filter (λ kv, kv.1.1 = n) (adj G))).
Definition in_degree (G : DiGraph) (n : Z) : Z :=
  Z.of_nat (size (filter (λ kv, kv.1.2 = n) (adj G))).

(** [dict(G.degree())]: total degree of every node, in node order. *)
Definition degree (G : DiGraph) : list (Z * Z) :=
  (λ n, (n, in_degree G n + out_degree G n)) <$> nodes G.

(** [range(a, b)] and [range(n)]. *)
Definition range2 (a b : Z) : list Z := seqZ a (b - a).
Definition range (n : Z) : list Z := range2 0 n.

(** ** Effects *)

Inductive line :=
  | StepRandom (t edges_added : Z)
  | GeneratedRandom (p : Q)
  | StepPreferential (step node targets : Z)
  | GeneratedPreferential (num_nodes m : Z)
  | StepHomophily (t edges_added : Z)
  | GeneratedHomophily (groups : Z) (p_in p_out : Q)
  | Saved (outfile : string)
  | FinalCounts (n e : Z)
  | WeightsIncluded.

Record world := mkWorld {
  cursor : nat;
  stdout : list line;
  files : list (string * DiGraph)
}.

Definition set_cursor (c : nat) (w : world) : world :=
  mkWorld c (stdout w) (files w).

Inductive outcome (A : Type) :=
  | Ok (a : A) (w : world)
  | Raise (e : exn) (w : world)
  | Timeout.
Arguments Ok {A} a w.
Arguments Raise {A} e w.
Arguments Timeout {A}.

Definition M (A : Type) : Type := world → outcome A.

Definition ret {A} (a : A) : M A := λ w, Ok a w.
Definition bind {A B} (m : M A) (f : A → M B) : M B :=
  λ w, match m w with
       | Ok a w' => f a w'
       | Raise e w' => Raise e w'
       | Timeout => Timeout
       end.
Definition raise {A} (e : exn) : M A := λ w, Raise e w.

Notation "x <- c1 ;; c2" := (bind c1 (λ x, c2))
  (at level 20, c1 at level 99, c2 at level 200, only parsing).
Notation "' pat <- c1 ;; c2" := (bind c1 (λ x, match x with pat => c2 end))
  (at level 20, pat pattern, c1 at level 99, c2 at level 200, only parsing).
Notation "c1 ;; c2" := (bind c1 (λ _, c2))
  (at level 100, c2 at level 200, only parsing, right associativity).

Definition print (l : line) : M () :=
  λ w, Ok () (mkWorld (cursor w) (stdout w ++ [l]) (files w)).

Definition write_file (name : string) (G : DiGraph) : M () :=
  λ w, Ok () (mkWorld (cursor w) (stdout w) (files w ++ [(name, G)])).

(** A [for] loop threading the loop-carried state. *)
Fixpoint forM {A S} (l : list A) (body : A → S → M S) (s : S) : M S :=
  match l with
  | [] => ret s
  | a :: l' => s' <- body a s ;; forM l' body s'
  end.

(** The random module, as a monad over the cursor alone. *)
Record draw := mkDraw { unif : Q; bits : Z }.

Definition Rand (A : Type) : Type := nat → exn + A * nat.
Definition rret {A} (a : A) : Rand A := λ c, inr (a, c).
Definition rbind {A B} (m : Rand A) (f : A → Rand B) : Rand B :=
  λ c, match m c with inl e => inl e | inr (a, c') => f a c' end.

Definition lift {A} (m : Rand A) : M A :=
  λ w, match m (cursor w) with
       | inl e => Raise e w
       | inr (a, c') => Ok a (set_cursor c' w)
       end.

Definition Qltb (x y : Q) : bool := negb (Qle_bool y x).

(** [G[i][j]['weight'] += 1]. *)
Definition incr_weight (G : DiGraph) (i j : Z) : M DiGraph :=
  match adj G !! (i, j) with
  | None | Some None => raise KeyError
  | Some (Some VNone) => raise TypeError
  | Some (Some (VInt k)) =>
      ret (mkDiGraph (nodes G) (node_group G)
             (<[(i, j) := Some (VInt (k + 1))]> (adj G)))
  | Some (Some (VFloat q)) =>
      ret (mkDiGraph (nodes G) (node_group G)
             (<[(i, j) := Some (VFloat (q + 1))]> (adj G)))
  end.

(** An undirected [networkx.Graph], as [barabasi_albert_graph] returns it:
    its nodes and each undirected edge once. *)
Record Graph := mkGraph {
  g_nodes : list Z;
  g_edges : list (Z * Z)
}.

Definition sum_values (degrees : list (Z * Z)) : Z :=
  foldr Z.add 0 (degrees.*2).

(** [groups[i]]. *)
Definition getitem (groups : gmap Z Z) (i : Z) : M Z :=
  match groups !! i with
  | Some g => ret g
  | None => raise KeyError
  end.

Section Generators.

(** The stream of draws behind the global [random] module. *)
Variable rs : nat → draw.

(** [networkx.barabasi_albert_graph(n, m)], a library routine: it draws
    from the same global stream. *)
Variable barabasi_albert_graph : Z → Z → M Graph.

Definition rand_random : Rand Q := λ c, inr (unif (rs c), S c).
Definition rand_randrange (n : Z) : Rand Z :=
  λ c, if decide (n ≤ 0) then inl ValueError
       else inr (bits (rs c) `mod` n, S c).

Definition random : M Q := lift rand_random.
Definition randrange (n : Z) : M Z := lift (rand_randrange n).
(** [random.uniform(a, b)] is [a + (b - a) * random()]. *)
Definition uniform (a b : Q) : M Q :=
  u <- random ;; ret (a + (b - a) * u)%Q.

(** ** generate_random_graph *)

(** One iteration of the dynamic inner loop, over node [i]. *)
Definition random_visit (num_nodes : Z) (p : Q) (edge_weights : bool)
    (i : Z) (st : DiGraph * Z) : M (DiGraph * Z) :=
  let '(G, edges_added) := st in
  u <- random ;;
  if Qltb u p then
    j <- randrange num_nodes ;;
    if decide (j = i) then ret (G, edges_added)
    else if has_edge G i j then
      (if edge_weights then
         G' <- incr_weight G i j ;; ret (G', edges_added)
       else ret (G, edges_added))
    else
      ret (add_edge i j (if edge_weights then Some (VInt 1) else None) G,
           edges_added + 1)
  else ret (G, edges_added).

(** One time step [t]: the sweep over all nodes, then the report. *)
Definition random_step (num_nodes : Z) (p : Q) (edge_weights : bool)
    (t : Z) (G : DiGraph) : M DiGraph :=
  '(G', edges_added) <- forM (range num_nodes)
                          (random_visit num_nodes p edge_weights) (G, 0) ;;
  print (StepRandom t edges_added) ;;
  ret G'.

Definition random_pair (p : Q) (edge_weights : bool) (i j : Z)
    (G : DiGraph) : M DiGraph :=
  if decide (i = j) then ret G
  else
    u <- random ;;
    if Qltb u p then
      (if edge_weights then
         x <- random ;; ret (add_edge i j (Some (VFloat x)) G)
       else ret (add_edge i j None G))
    else ret G.

Definition generate_random_graph (num_nodes : Z) (dynamic : bool)
    (time_steps : Z) (p : Q) (edge_weights : bool) : M DiGraph :=
  let G := add_nodes_from (range num_nodes) empty_graph in
  if dynamic then
    forM (range2 1 (time_steps + 1)) (random_step num_nodes p edge_weights) G
  else
    G' <- forM (range num_nodes)
            (λ i G, forM (range num_nodes) (random_pair p edge_weights i) G) G ;;
    print (GeneratedRandom p) ;;
    ret G'.

(** ** generate_preferential_attachment_graph *)

(** The initial fully connected core. *)
Definition seed_clique (edge_weights : bool) (initial_nodes : Z)
    (G : DiGraph) : DiGraph :=
  foldl (λ G u,
    foldl (λ G v,
      if decide (u ≠ v) then
        add_edge u v (Some (if edge_weights then VInt 1 else VNone)) G
      else G) G (range initial_nodes)) G (range initial_nodes).

(** The scan of [degrees.items()] for one draw [r], up to its [break]. *)
Fixpoint scan_degrees (degrees : list (Z * Z)) (cum : Z) (r : Q) (t : Z)
    (targets : gset Z) : gset Z :=
  match degrees with
  | [] => targets
  | (node, deg) :: rest =>
      let cum := cum + deg in
      if Qle_bool r (inject_Z cum) then
        (if decide (node ≠ t) then {[node]} ∪ targets else targets)
      else scan_degrees rest cum r t targets
  end.

(** The [while len(targets) < edges_per_step] loop; [fuel] bounds the
    number of draws. *)
Fixpoint choose_targets (fuel : nat) (degrees : list (Z * Z))
    (total_degree edges_per_step t : Z) (targets : gset Z) : M (gset Z) :=
  if decide (Z.of_nat (size targets) < edges_per_step) then
    match fuel with
    | O => λ _, Timeout
    | S fuel' =>
        r <- uniform 0 (inject_Z total_degree) ;;
        choose_targets fuel' degrees total_degree edges_per_step t
          (scan_degrees degrees 0 r t targets)
    end
  else ret targets.

(** The arrival of node [t]. *)
Definition preferential_arrival (fuel : nat) (edges_per_step : Z)
    (edge_weights : bool) (initial_nodes t : Z) (G : DiGraph) : M DiGraph :=
  let G := add_node t G in
  let degrees := degree G in
  let total_degree := sum_values degrees in
  targets <- choose_targets fuel degrees total_degree edges_per_step t ∅ ;;
  let G := foldl (λ G target,
                    add_edge t target
                      (if edge_weights then Some (VInt 1) else None) G)
             G (elements targets) in
  print (StepPreferential (t - initial_nodes + 1) t (Z.of_nat (size targets))) ;;
  ret G.

(** [weight=(random.random() if edge_weights else None)]. *)
Definition sample_weight (edge_weights : bool) : M value :=
  if edge_weights then x <- random ;; ret (VFloat x) else ret VNone.

Definition generate_preferential_attachment_graph (fuel : nat)
    (num_nodes : Z) (dynamic : bool) (time_steps : Z) (edges_per_step : Z)
    (edge_weights : bool) : M DiGraph :=
  let G := empty_graph in
  if dynamic then
    let initial_nodes := edges_per_step + 1 in
    let G := add_nodes_from (range initial_nodes) G in
    let G := seed_clique edge_weights initial_nodes G in
    forM (range2 initial_nodes num_nodes)
      (preferential_arrival fuel edges_per_step edge_weights initial_nodes) G
  else
    BA <- barabasi_albert_graph num_nodes edges_per_step ;;
    let G := add_nodes_from (g_nodes BA) G in
    G' <- forM (g_edges BA)
            (λ '(u, v) G,
               a <- sample_weight edge_weights ;;
               let G := add_edge u v (Some a) G in
               b <- sample_weight edge_weights ;;
               ret (add_edge v u (Some b) G)) G ;;
    print (GeneratedPreferential num_nodes edges_per_step) ;;
    ret G'.

(** ** generate_homophily_graph *)

(** [{i: i % homophily_groups for i in range(num_nodes)}]. *)
Definition assign_groups (num_nodes homophily_groups : Z) : M (gmap Z Z) :=
  forM (range num_nodes)
    (λ i groups,
       if decide (homophily_groups = 0) then raise ZeroDivisionError
       else ret (<[i := i `mod` homophily_groups]> groups)) ∅.

(** The body shared by the same-group and cross-group branches of the
    dynamic loop once the Bernoulli test has passed. *)
Definition homophily_link (edge_weights : bool) (i j : Z)
    (st : DiGraph * Z) : M (DiGraph * Z) :=
  let '(G, edges_added) := st in
  if has_edge G i j then
    (if edge_weights then
       G' <- incr_weight G i j ;; ret (G', edges_added)
     else ret (G, edges_added))
  else
    ret (add_edge i j (Some (if edge_weights then VInt 1 else VNone)) G,
         edges_added + 1).

Definition homophily_visit (num_nodes : Z) (groups : gmap Z Z)
    (p_in p_out : Q) (edge_weights : bool) (i : Z) (st : DiGraph * Z)
    : M (DiGraph * Z) :=
  j <- randrange num_nodes ;;
  if decide (j = i) then ret st
  else
    gi <- getitem groups i ;;
    gj <- getitem groups j ;;
    if decide (gi = gj) then
      u <- random ;;
      if Qltb u p_in then homophily_link edge_weights i j st else ret st
    else
      u <- random ;;
      if Qltb u p_out then homophily_link edge_weights i j st else ret st.

Definition homophily_step (num_nodes : Z) (groups : gmap Z Z)
    (p_in p_out : Q) (edge_weights : bool) (t : Z) (G : DiGraph)
    : M DiGraph :=
  '(G', edges_added) <- forM (range num_nodes)
                          (homophily_visit num_nodes groups p_in p_out
                             edge_weights) (G, 0) ;;
  print (StepHomophily t edges_added) ;;
  ret G'.

Definition homophily_pair (groups : gmap Z Z) (p_in p_out : Q)
    (edge_weights : bool) (i j : Z) (G : DiGraph) : M DiGraph :=
  if decide (i = j) then ret G
  else
    gi <- getitem groups i ;;
    gj <- getitem groups j ;;
    if decide (gi = gj) then
      u <- random ;;
      if Qltb u p_in then
        a <- sample_weight edge_weights ;; ret (add_edge i j (Some a) G)
      else ret G
    else
      u <- random ;;
      if Qltb u p_out then
        a <- sample_weight edge_weights ;; ret (add_edge i j (Some a) G)
      else ret G.

Definition generate_homophily_graph (num_nodes : Z) (dynamic : bool)
    (time_steps : Z) (homophily_groups : Z) (p_in p_out : Q)
    (edge_weights : bool) : M DiGraph :=
  let G := add_nodes_from (range num_nodes) empty_graph in
  groups <- assign_groups num_nodes homophily_groups ;;
  let G := set_node_attributes groups G in
  if dynamic then
    forM (range2 1 (time_steps + 1))
      (homophily_step num_nodes groups p_in p_out edge_weights) G
  else
    G' <- forM (range num_nodes)
            (λ i G,
               forM (range num_nodes)
                 (homophily_pair groups p_in p_out edge_weights i) G) G ;;
    print (GeneratedHomophily homophily_groups p_in p_out) ;;
    ret G'.

(** ** main *)

(** The configuration mapping: every recognised key is absent or holds a
    value of the type the generators use it at.  The key [strategy] is
    read only as the fallback of [linking_strategy]. *)
Record config := mkConfig {
  cfg_num_agents : option Z;
  cfg_linking_strategy : option string;
  cfg_strategy : option string;
  cfg_time_steps : option Z;
  cfg_dynamic : option bool;
  cfg_edge_weights : option bool;
  cfg_output_format : option string;
  cfg_p : option Q;
  cfg_edges_per_step : option Z;
  cfg_homophily_groups : option Z;
  cfg_p_in : option Q;
  cfg_p_out : option Q
}.

(** [config.get(key, default)]. *)
Definition get {A} (entry : option A) (dflt : A) : A := default dflt entry.

(** The doubles written [0.1] and [0.01]. *)
Definition float_0_1 : Q := 3602879701896397 # 36028797018963968.
Definition float_0_01 : Q := 5764607523034235 # 576460752303423488.

Definition lower_ascii (c : ascii) : ascii :=
  let n := nat_of_ascii c in
  if ((65 <=? n) && (n <=? 90))%nat then ascii_of_nat (n + 32) else c.

(** [str.lower()], on the ASCII letters. *)
Fixpoint lower (s : string) : string :=
  match s with
  | EmptyString => EmptyString
  | String c s' => String (lower_ascii c) (lower s')
  end.

Definition main (fuel : nat) (config : config) : M () :=
  let num_nodes := get (cfg_num_agents config) 100 in
  let strategy :=
    get (cfg_linking_strategy config) (get (cfg_strategy config) "random") in
  let time_steps := get (cfg_time_steps config) 1 in
  let dynamic := get (cfg_dynamic config) false in
  let edge_weights := get (cfg_edge_weights config) false in
  let output_format := lower (get (cfg_output_format config) "graphml") in
  G <- (if decide (strategy = "random") then
          let p := get (cfg_p config) float_0_1 in
          generate_random_graph num_nodes dynamic time_steps p edge_weights
        else if decide (strategy = "preferential_attachment"
                        ∨ strategy = "preferential") then
          let m := get (cfg_edges_per_step config) 1 in
          generate_preferential_attachment_graph fuel num_nodes dynamic
            time_steps m edge_weights
        else if decide (strategy = "homophily") then
          let groups := get (cfg_homophily_groups config) 2 in
          let p_in := get (cfg_p_in config) float_0_1 in
          let p_out := get (cfg_p_out config) float_0_01 in
          generate_homophily_graph num_nodes dynamic time_steps groups
            p_in p_out edge_weights
        else raise ValueError) ;;
  let outfile := ("network." +:+ output_format)%string in
  outfile <- (if decide (output_format = "graphml") then
                write_file outfile G ;; ret outfile
              else if decide (output_format = "gexf") then
                write_file outfile G ;; ret outfile
              else if decide (output_format = "png") then
                write_file outfile G ;; ret outfile
              else
                write_file "network.graphml" G ;; ret "network.graphml"%string) ;;
  print (Saved outfile) ;;
  print (FinalCounts (number_of_nodes G) (number_of_edges G)) ;;
  if edge_weights then print WeightsIncluded else ret ().

End Generators.

(** * Specification vocabulary *)

(** ** Predicates on graphs and on loop iterations *)

(** Every edge and its data satisfy [P]. *)
Definition edges_sat (P : Z * Z → edge_data → Prop) (G : DiGraph) : Prop :=
  ∀ e d, adj G !! e = Some d → P e d.

(** [P] survives [G[i][j]['weight'] += 1]. *)
Definition incr_closed (P : Z * Z → edge_data → Prop) : Prop :=
  (∀ e k, P e (Some (VInt k)) → P e (Some (VInt (k + 1)))) ∧
  (∀ e q, P e (Some (VFloat q)) → P e (Some (VFloat (q + 1)))).

(** What a passed Bernoulli test does to the pair [(i, j)] in the dynamic
    loops: reinforce the edge when it exists, create it with the data
    [fresh] and count it when it does not. *)
Definition linked (edge_weights : bool) (fresh : option value) (i j : Z)
    (st st' : DiGraph * Z) : Prop :=
  (is_Some (adj st.1 !! (i, j)) ∧ st'.2 = st.2 ∧
   if edge_weights then ∃ w, incr_weight st.1 i j w = Ok st'.1 w
   else st'.1 = st.1)
  ∨ (adj st.1 !! (i, j) = None ∧ st'.2 = st.2 + 1 ∧
     st'.1 = add_edge i j fresh st.1).

(** The dictionary [groups] maps every node to its residue. *)
Definition groups_spec (n g : Z) (groups : gmap Z Z) : Prop :=
  ∀ i, groups !! i = if decide (i ∈ range n) then Some (i `mod` g) else None.

(** The selections of a sequence of iterations, in order. *)
Fixpoint picks (pick : Z → Rand (option (Z * Z))) (l : list Z)
    : Rand (list (Z * Z)) :=
  match l with
  | [] => rret []
  | i :: l' =>
      rbind (pick i) (λ o,
        rbind (picks pick l') (λ tr, rret (option_list o ++ tr)))
  end.

(** The nodes visited by the time steps [steps] of a dynamic run. *)
Definition visits (n : Z) (steps : list Z) : list Z :=
  concat ((λ _, range n) <$> steps).

(** How often the pair [e] was selected. *)
Definition occurrences (e : Z * Z) (tr : list (Z * Z)) : Z :=
  Z.of_nat (length (filter (λ x, x = e) tr)).

(** Every edge carries an integer weight, at least 1. *)
Definition counted (G : DiGraph) : Prop :=
  edges_sat (λ _ d, ∃ k, d = Some (VInt k) ∧ 1 ≤ k) G.

(** The integer weight of the pair [e], 0 when it is not an edge. *)
Definition weight_of (G : DiGraph) (e : Z * Z) : Z :=
  match adj G !! e with
  | Some (Some (VInt k)) => k
  | _ => 0
  end.

(** Both endpoints of every edge are below [t]. *)
Definition within (t : Z) (G : DiGraph) : Prop :=
  edges_sat (λ e _, e.1 ∈ range t ∧ e.2 ∈ range t) G.

Section Vocabulary.

Variable rs : nat → draw.
Variable barabasi_albert_graph : Z → Z → M Graph.

(** The data a generator attaches to an edge it creates. *)
Definition fresh_data (dynamic edge_weights : bool) (d : edge_data) : Prop :=
  if edge_weights then
    if dynamic then d = Some (VInt 1)
    else ∃ c, d = Some (VFloat (unif (rs c)))
  else d = None ∨ d = Some VNone.

(** [P] holds of every pair of distinct nodes carrying such data. *)
Definition admits (P : Z * Z → edge_data → Prop) (dynamic ew : bool)
    : Prop :=
  ∀ i j d, i ≠ j → fresh_data dynamic ew d → P (i, j) d.

(** What the documentation of [barabasi_albert_graph] promises of a
    returned graph: nodes [0 .. n-1], edges between them, no self-loop. *)
Definition ba_contract : Prop :=
  ∀ n m w B w', barabasi_albert_graph n m w = Ok B w' →
    g_nodes B = range n ∧
    ∀ u v, (u, v) ∈ g_edges B → u ≠ v ∧ u ∈ range n ∧ v ∈ range n.

(** [random.random()] returns a float of the half-open interval [0, 1). *)
Definition valid_stream : Prop := ∀ c, (0 <= unif (rs c) < 1)%Q.

(** The pair one iteration of a dynamic loop selects, read off the draws
    alone: [None] when the Bernoulli test fails or the target is the node
    itself. *)
Definition random_pick (n : Z) (p : Q) (i : Z) : Rand (option (Z * Z)) :=
  rbind (rand_random rs) (λ u,
    if Qltb u p then
      rbind (rand_randrange rs n) (λ j,
        rret (if decide (j = i) then None else Some (i, j)))
    else rret None).

(** The same for the homophily loop, which draws its target first. *)
Definition homophily_pick (n g : Z) (p_in p_out : Q) (i : Z)
    : Rand (option (Z * Z)) :=
  rbind (rand_randrange rs n) (λ j,
    if decide (j = i) then rret None
    else rbind (rand_random rs) (λ u,
      rret (if Qltb u (if decide (i `mod` g = j `mod` g)
                       then p_in else p_out)
            then Some (i, j) else None))).

End Vocabulary.

(** An iteration of a loop, against the selection read off the draws. *)
Definition follows (visit : DiGraph * Z → M (DiGraph * Z))
    (pick : Rand (option (Z * Z))) : Prop :=
  ∀ st w, counted st.1 →
    ∃ o c' st', pick (cursor w) = inr (o, c') ∧
      visit st w = Ok st' (set_cursor c' w) ∧
      match o with
      | None => st' = st
      | Some e => linked true (Some (VInt 1)) e.1 e.2 st st'
      end.

(** The line printed for the arrival of node [t]. *)
Definition arrival_line (m t : Z) : line :=
  StepPreferential (t - (m + 1) + 1) t (Z.max 0 m).

(** The strategy name [main] dispatches on. *)
Definition strategy_of (cfg : config) : string :=
  get (cfg_linking_strategy cfg) (get (cfg_strategy cfg) "random").


(** The file names [main] can write to. *)
Definition written (name : string) : Prop :=
  name = "network.graphml" ∨ name = "network.gexf" ∨ name = "network.png".

(** The shape of the ['weight'] entry of an edge, by mode. *)
Definition weight_shape (dynamic edge_weights : bool) (d : edge_data)
    : Prop :=
  if edge_weights then
    if dynamic then ∃ k, d = Some (VInt k) ∧ 1 ≤ k
    else ∃ q, d = Some (VFloat q) ∧ (0 <= q < 1)%Q
  else d = None ∨ d = Some VNone.

(** ** Concrete streams and configurations, used to exercise the statements *)

(** Every draw is the float [0.0] and the integer [1]. *)
Definition zero_stream : nat → draw := λ _, mkDraw 0 1.

(** A stand-in for [barabasi_albert_graph]: the star around node 0. *)
Definition star_graph (n m : Z) : M Graph :=
  if decide (1 ≤ m < n) then
    ret (mkGraph (range n) ((λ k, (0, k)) <$> range2 1 n))
  else raise NetworkXError.

(** The world before anything was drawn, printed or written. *)
Definition blank : world := mkWorld 0 [] [].

(** A graph in which node 0 already points at node 1 with weight 1. *)
Definition tied : DiGraph :=
  add_edge 0 1 (Some (VInt 1)) (add_nodes_from (range 3) empty_graph).

(** [{"num_agents": -5}]. *)
Definition negative_population : config :=
  mkConfig (Some (-5)) None None None None None None None None None None None.

(** [{"num_agents": 3, "strategy": "homophilly"}]. *)
Definition misspelt : config :=
  mkConfig (Some 3) None (Some "homophilly") None None None None None None
    None None None.


(** [{"strategy": "homophily", "homophily_groups": 0}]. *)
Definition no_groups : config :=
  mkConfig None None (Some "homophily") None None None None None None
    (Some 0) None None.

(** The configuration with one key replaced. *)
Definition with_linking_strategy (name : option string) (cfg : config)
    : config :=
  mkConfig (cfg_num_agents cfg) name (cfg_strategy cfg)
    (cfg_time_steps cfg) (cfg_dynamic cfg) (cfg_edge_weights cfg)
    (cfg_output_format cfg) (cfg_p cfg) (cfg_edges_per_step cfg)
    (cfg_homophily_groups cfg) (cfg_p_in cfg) (cfg_p_out cfg).

Definition with_strategy (name : option string) (cfg : config) : config :=
  mkConfig (cfg_num_agents cfg) (cfg_linking_strategy cfg) name
    (cfg_time_steps cfg) (cfg_dynamic cfg) (cfg_edge_weights cfg)
    (cfg_output_format cfg) (cfg_p cfg) (cfg_edges_per_step cfg)
    (cfg_homophily_groups cfg) (cfg_p_in cfg) (cfg_p_out cfg).

(** * Properties *)

(** ** Reasoning about computations *)

Lemma bind_Ok {A B} (m : M A) (f : A → M B) w b w' :
  bind m f w = Ok b w' ↔ ∃ a w1, m w = Ok a w1 ∧ f a w1 = Ok b w'.
Proof.
  unfold bind. destruct (m w) as [a w1| |]; split.
  - intros H. by exists a, w1.
  - by intros (? & ? & [= -> ->] & ?).
  - done.
  - by intros (? & ? & ? & ?).
  - done.
  - by intros (? & ? & ? & ?).
Qed.

Lemma ret_Ok {A} (a b : A) w w' : ret a w = Ok b w' ↔ a = b ∧ w = w'.
Proof. unfold ret. split; [by intros [= -> ->] | by intros [-> ->]]. Qed.

(** Inversion of a successful run, one bind at a time. *)
Ltac inv_run H :=
  repeat match type of H with
  | bind _ _ _ = Ok _ _ =>
      let a := fresh "x_" in let w := fresh "w_" in
      let H1 := fresh "Hrun" in
      apply bind_Ok in H; destruct H as (a & w & H1 & H)
  | ret _ _ = Ok ?b ?w' =>
      let H1 := fresh "Hret" in let H2 := fresh "Hret" in
      apply ret_Ok in H; destruct H as [H1 H2];
      try (is_var b; subst b); try (is_var w'; subst w')
  | raise _ _ = Ok _ _ => discriminate H
  | Raise _ _ = Ok _ _ => discriminate H
  | Timeout = Ok _ _ => discriminate H
  end.

(** A loop preserves what each of its iterations preserves. *)
Lemma forM_inv {A S} (I : S → world → Prop) (l : list A)
    (body : A → S → M S) :
  (∀ a s w s' w', a ∈ l → I s w → body a s w = Ok s' w' → I s' w') →
  ∀ s w s' w', I s w → forM l body s w = Ok s' w' → I s' w'.
Proof.
  induction l as [|a l IH]; intros Hbody s w s' w' HI Hrun; simpl in Hrun.
  - apply ret_Ok in Hrun as [-> ->]. done.
  - apply bind_Ok in Hrun as (s1 & w1 & H1 & H2).
    eapply IH; [| |exact H2].
    + intros. eapply Hbody; eauto. by right.
    + eapply Hbody; eauto. by left.
Qed.

(** A loop of iterations that all succeed succeeds. *)
Lemma forM_total {A S} (I : S → world → Prop) (l : list A)
    (body : A → S → M S) :
  (∀ a s w, a ∈ l → I s w → ∃ s' w', body a s w = Ok s' w' ∧ I s' w') →
  ∀ s w, I s w → ∃ s' w', forM l body s w = Ok s' w' ∧ I s' w'.
Proof.
  induction l as [|a l IH]; intros Hbody s w HI; simpl.
  - by exists s, w.
  - destruct (Hbody a s w) as (s1 & w1 & H1 & HI1); [by left|done|].
    destruct (IH (λ a s w Hin, Hbody a s w (list_elem_of_further _ _ _ Hin))
                s1 w1 HI1) as (s' & w' & H2 & HI2).
    exists s', w'. split; [|done]. unfold bind. by rewrite H1.
Qed.

Lemma foldl_inv {A S} (I : S → Prop) (l : list A) (f : S → A → S) :
  (∀ a s, a ∈ l → I s → I (f s a)) → ∀ s, I s → I (foldl f s l).
Proof.
  induction l as [|a l IH]; intros Hf s HI; simpl; [done|].
  apply IH; [|apply Hf; [by left|done]].
  intros. apply Hf; [by right|done].
Qed.

Lemma elem_of_range n i : i ∈ range n ↔ 0 ≤ i < n.
Proof. unfold range, range2. rewrite elem_of_seqZ. lia. Qed.

Lemma elem_of_range2 a b i : i ∈ range2 a b ↔ a ≤ i < b.
Proof. unfold range2. rewrite elem_of_seqZ. lia. Qed.

(** ** The graph container *)

Lemma adj_add_node n G : adj (add_node n G) = adj G.
Proof. unfold add_node. by destruct (decide _). Qed.

Lemma adj_add_nodes_from l G : adj (add_nodes_from l G) = adj G.
Proof.
  unfold add_nodes_from.
  apply (foldl_inv (λ G', adj G' = adj G)); [|done].
  intros a s _ <-. apply adj_add_node.
Qed.

Lemma add_node_present n G : n ∈ nodes G → add_node n G = G.
Proof. intros H. unfold add_node. by rewrite decide_True. Qed.

Lemma nodes_add_edge u v kw G :
  u ∈ nodes G → v ∈ nodes G → nodes (add_edge u v kw G) = nodes G.
Proof.
  intros Hu Hv. unfold add_edge. simpl.
  by rewrite (add_node_present u), (add_node_present v).
Qed.

Lemma nodes_add_nodes_from l :
  NoDup l → nodes (add_nodes_from l empty_graph) = l.
Proof.
  intros Hl. unfold add_nodes_from.
  enough (∀ G, (∀ x, x ∈ l → x ∉ nodes G) →
               nodes (foldl (λ G n, add_node n G) G l) = nodes G ++ l) as H.
  { rewrite H; [done|]. intros x _. simpl. apply not_elem_of_nil. }
  induction Hl as [|x l Hx Hl IH]; intros G HG; simpl.
  - by rewrite app_nil_r.
  - rewrite IH.
    + unfold add_node. rewrite decide_False by (apply HG; by left).
      simpl. by rewrite <- app_assoc.
    + intros y Hy. unfold add_node.
      rewrite decide_False by (apply HG; by left). simpl.
      rewrite elem_of_app, list_elem_of_singleton.
      intros [Hin | ->]; [|done]. eapply HG; [|exact Hin]. by right.
Qed.

Lemma nodes_range n : nodes (add_nodes_from (range n) empty_graph) = range n.
Proof. apply nodes_add_nodes_from, NoDup_seqZ. Qed.

Lemma edges_sat_empty P G : adj G = ∅ → edges_sat P G.
Proof. intros HG e d. by rewrite HG, lookup_empty. Qed.

Lemma edges_sat_add_edge P u v kw G :
  edges_sat P G →
  P (u, v) (match kw with
            | Some x => Some x
            | None => default None (adj G !! (u, v))
            end) →
  edges_sat P (add_edge u v kw G).
Proof.
  intros HG HP e d. unfold add_edge. simpl.
  destruct (decide (e = (u, v))) as [->|Hne].
  - rewrite lookup_insert_eq. by intros [= <-].
  - rewrite lookup_insert_ne by done. apply HG.
Qed.

Lemma edges_sat_add_edge_kw P u v x G :
  edges_sat P G → P (u, v) (Some x) → edges_sat P (add_edge u v (Some x) G).
Proof. intros. by apply edges_sat_add_edge. Qed.

Lemma edges_sat_add_edge_bare P u v G :
  edges_sat P G → P (u, v) None → edges_sat P (add_edge u v None G).
Proof.
  intros HG HP. apply edges_sat_add_edge; [done|].
  destruct (adj G !! (u, v)) as [d|] eqn:E; simpl; [by apply HG|done].
Qed.

Lemma edges_sat_incr_weight P G i j w G' w' :
  incr_closed P → edges_sat P G →
  incr_weight G i j w = Ok G' w' → edges_sat P G'.
Proof.
  intros [Hk Hq] HG. unfold incr_weight.
  destruct (adj G !! (i, j)) as [[[|k|q]|]|] eqn:E; try done;
    intros [= <- <-] e d; simpl;
    (destruct (decide (e = (i, j))) as [->|Hne];
     [rewrite lookup_insert_eq; intros [= <-]
     |rewrite lookup_insert_ne by done; apply HG]).
  - apply Hk. by apply HG.
  - apply Hq. by apply HG.
Qed.

Lemma incr_weight_world G i j w G' w' :
  incr_weight G i j w = Ok G' w' → w' = w.
Proof.
  unfold incr_weight.
  destruct (adj G !! (i, j)) as [[[|k|q]|]|]; try done; by intros [= _ <-].
Qed.

Lemma nodes_incr_weight G i j w G' w' :
  incr_weight G i j w = Ok G' w' → nodes G' = nodes G.
Proof.
  unfold incr_weight.
  destruct (adj G !! (i, j)) as [[[|k|q]|]|]; try done; by intros [= <- _].
Qed.

Lemma size_incr_weight G i j w G' w' :
  incr_weight G i j w = Ok G' w' → number_of_edges G' = number_of_edges G.
Proof.
  unfold incr_weight, number_of_edges.
  destruct (adj G !! (i, j)) as [[[|k|q]|]|] eqn:E; try done;
    intros [= <- _]; simpl; f_equal;
    by erewrite map_size_insert_Some.
Qed.

Lemma size_add_edge_new u v kw G :
  adj G !! (u, v) = None →
  number_of_edges (add_edge u v kw G) = number_of_edges G + 1.
Proof.
  intros H. unfold number_of_edges, add_edge. simpl.
  rewrite map_size_insert_None by done. lia.
Qed.

Lemma linked_sat P ew fresh i j st st' :
  incr_closed P → P (i, j) (from_option Some None fresh) →
  linked ew fresh i j st st' → edges_sat P st.1 → edges_sat P st'.1.
Proof.
  intros Hc HP [(Hin & _ & H) | (Hout & _ & ->)] HG.
  - destruct ew; [|by rewrite H].
    destruct H as [w H]. by eapply edges_sat_incr_weight.
  - apply edges_sat_add_edge; [done|]. rewrite Hout. by destruct fresh.
Qed.

Lemma linked_nodes ew fresh i j st st' :
  linked ew fresh i j st st' →
  i ∈ nodes st.1 → j ∈ nodes st.1 → nodes st'.1 = nodes st.1.
Proof.
  intros [(_ & _ & H) | (_ & _ & ->)] Hi Hj.
  - destruct ew; [|by rewrite H].
    destruct H as [w H]. by eapply nodes_incr_weight.
  - by apply nodes_add_edge.
Qed.

Lemma linked_count ew fresh i j st st' :
  linked ew fresh i j st st' →
  number_of_edges st'.1 - st'.2 = number_of_edges st.1 - st.2.
Proof.
  intros [(_ & -> & H) | (Hout & -> & ->)].
  - destruct ew; [|by rewrite H].
    destruct H as [w H]. by rewrite (size_incr_weight _ _ _ _ _ _ H).
  - rewrite size_add_edge_new by done. lia.
Qed.

Section Runs.

Variable rs : nat → draw.
Variable barabasi_albert_graph : Z → Z → M Graph.

Lemma random_Ok w u w' :
  random rs w = Ok u w' →
  u = unif (rs (cursor w)) ∧ w' = set_cursor (S (cursor w)) w.
Proof. by intros [= <- <-]. Qed.

Lemma randrange_Ok n w j w' :
  randrange rs n w = Ok j w' →
  0 ≤ j < n ∧ j = bits (rs (cursor w)) `mod` n ∧
  w' = set_cursor (S (cursor w)) w.
Proof.
  unfold randrange, lift, rand_randrange.
  destruct (decide (n ≤ 0)); [done|]. intros [= <- <-].
  split; [|done]. apply Z.mod_pos_bound. lia.
Qed.

Lemma homophily_link_linked ew i j st w st' w' :
  homophily_link ew i j st w = Ok st' w' →
  w' = w ∧ linked ew (Some (if ew then VInt 1 else VNone)) i j st st'.
Proof.
  destruct st as [G ea]. unfold homophily_link, has_edge.
  case_bool_decide as Hin.
  - destruct ew.
    + intros H. inv_run H.
      pose proof (incr_weight_world _ _ _ _ _ _ Hrun) as ->.
      split; [done|]. left. simpl. eauto.
    + intros H. inv_run H. split; [done|]. by left.
  - intros H. inv_run H. split; [done|]. right. simpl.
    split; [|done]. by apply eq_None_not_Some.
Qed.

Lemma random_visit_cases n p ew i st w st' w' :
  random_visit rs n p ew i st w = Ok st' w' →
  stdout w' = stdout w ∧
  (st' = st ∨
   ∃ j, j ≠ i ∧ 0 ≤ j < n ∧
        linked ew (if ew then Some (VInt 1) else None) i j st st').
Proof.
  destruct st as [G ea]. unfold random_visit. intros H.
  apply bind_Ok in H as (u & w1 & [_ ->]%random_Ok & H).
  destruct (Qltb u p); [|inv_run H; split; [done|by left]].
  apply bind_Ok in H as (j & w2 & (Hj & _ & ->)%randrange_Ok & H).
  destruct (decide (j = i)) as [->|Hne];
    [inv_run H; split; [done|by left]|].
  unfold has_edge in H. case_bool_decide as Hin.
  - destruct ew.
    + inv_run H.
      pose proof (incr_weight_world _ _ _ _ _ _ Hrun) as ->.
      split; [done|]. right. exists j. do 2 (split; [done|]).
      left. simpl. eauto.
    + inv_run H. split; [done|]. right. exists j.
      do 2 (split; [done|]). by left.
  - inv_run H. split; [done|]. right. exists j. do 2 (split; [done|]).
    right. simpl. split; [|done]. by apply eq_None_not_Some.
Qed.

Lemma getitem_Ok groups i w g w' :
  getitem groups i w = Ok g w' → groups !! i = Some g ∧ w' = w.
Proof.
  unfold getitem. destruct (groups !! i); [|done]. by intros [= <- <-].
Qed.

Lemma homophily_visit_cases n groups p_in p_out ew i st w st' w' :
  homophily_visit rs n groups p_in p_out ew i st w = Ok st' w' →
  stdout w' = stdout w ∧
  (st' = st ∨
   ∃ j, j ≠ i ∧ 0 ≤ j < n ∧
        linked ew (Some (if ew then VInt 1 else VNone)) i j st st').
Proof.
  unfold homophily_visit. intros H.
  apply bind_Ok in H as (j & w1 & (Hj & _ & ->)%randrange_Ok & H).
  destruct (decide (j = i)) as [->|Hne];
    [inv_run H; split; [done|by left]|].
  apply bind_Ok in H as (gi & w2 & [_ ->]%getitem_Ok & H).
  apply bind_Ok in H as (gj & w3 & [_ ->]%getitem_Ok & H).
  destruct (decide (gi = gj));
    apply bind_Ok in H as (u & w4 & [_ ->]%random_Ok & H);
    (destruct (Qltb u _); [|inv_run H; split; [done|by left]]);
    apply homophily_link_linked in H as [-> H]; (split; [done|]);
    right; eauto.
Qed.

Lemma sample_weight_Ok ew w a w' :
  sample_weight rs ew w = Ok a w' → fresh_data rs false ew (Some a).
Proof.
  unfold sample_weight, fresh_data. destruct ew.
  - intros H. inv_run H. apply random_Ok in Hrun as [-> _]. eauto.
  - intros H. inv_run H. by right.
Qed.

Lemma random_pair_cases p ew i j G w G' w' :
  random_pair rs p ew i j G w = Ok G' w' →
  G' = G ∨ ∃ kw, i ≠ j ∧ fresh_data rs false ew kw ∧ G' = add_edge i j kw G.
Proof.
  unfold random_pair. destruct (decide (i = j)); intros H;
    [inv_run H; by left|].
  apply bind_Ok in H as (u & w1 & _ & H).
  destruct (Qltb u p); [|inv_run H; by left].
  right. destruct ew.
  - inv_run H. apply random_Ok in Hrun as [-> _].
    eexists. split; [done|]. split; [|done]. simpl. eauto.
  - inv_run H. exists None. split; [done|]. split; [by left|done].
Qed.

Lemma homophily_pair_cases groups p_in p_out ew i j G w G' w' :
  homophily_pair rs groups p_in p_out ew i j G w = Ok G' w' →
  G' = G ∨
  ∃ gi gj u a, i ≠ j ∧ groups !! i = Some gi ∧ groups !! j = Some gj ∧
    (∃ c, u = unif (rs c)) ∧
    Qltb u (if decide (gi = gj) then p_in else p_out) = true ∧
    fresh_data rs false ew (Some a) ∧ G' = add_edge i j (Some a) G.
Proof.
  unfold homophily_pair. destruct (decide (i = j)); intros H;
    [inv_run H; by left|].
  apply bind_Ok in H as (gi & w1 & [Hgi ->]%getitem_Ok & H).
  apply bind_Ok in H as (gj & w2 & [Hgj ->]%getitem_Ok & H).
  destruct (decide (gi = gj)) as [Hg|Hg];
    apply bind_Ok in H as (u & w3 & [-> _]%random_Ok & H);
    (destruct (Qltb _ _) eqn:Hu; [|inv_run H; by left]);
    apply bind_Ok in H as (a & w4 & Ha%sample_weight_Ok & H); inv_run H;
    right; exists gi, gj, (unif (rs (cursor w))), a;
    (rewrite ?decide_True by done; rewrite ?decide_False by done);
    eauto 10.
Qed.

(** *** Every edge of a generated graph satisfies an admitted predicate *)

Lemma fresh_some ew : fresh_data rs true ew (Some (if ew then VInt 1 else VNone)).
Proof. destruct ew; simpl; auto. Qed.

Lemma random_graph_sat P n dyn ts p ew w G w' :
  (dyn = true → incr_closed P) → admits rs P dyn ew →
  generate_random_graph rs n dyn ts p ew w = Ok G w' → edges_sat P G.
Proof.
  intros Hc HP. unfold generate_random_graph.
  assert (edges_sat P (add_nodes_from (range n) empty_graph)) as H0
    by (apply edges_sat_empty; by rewrite adj_add_nodes_from).
  destruct dyn.
  - specialize (Hc eq_refl).
    apply (forM_inv (λ G _, edges_sat P G)); [|done].
    intros t G1 w1 G2 w2 _ HG1 H. unfold random_step in H.
    apply bind_Ok in H as ([G3 ea] & w3 & Hsweep & H). inv_run H.
    revert Hsweep.
    apply (forM_inv (λ st _, edges_sat P st.1)); [|done].
    intros i st w4 st' w5 _ Hst [_ [->|(j & Hne & _ & Hl)]]%random_visit_cases;
      [done|].
    eapply linked_sat; [done| |done|done].
    apply HP; [done|]. destruct ew; simpl; auto.
  - intros H. apply bind_Ok in H as (Gf & wf & Hloop & H). inv_run H.
    revert Hloop. apply (forM_inv (λ G _, edges_sat P G)); [|done].
    intros i G1 w1 G2 w2 _ HG1.
    apply (forM_inv (λ G _, edges_sat P G)); [|done].
    intros j G3 w3 G4 w4 _ HG3
      [->|(kw & Hne & Hkw & ->)]%random_pair_cases; [done|].
    destruct kw as [x|].
    + apply edges_sat_add_edge_kw; [done|]. by apply HP.
    + apply edges_sat_add_edge_bare; [done|]. by apply HP.
Qed.

Lemma homophily_graph_sat P n dyn ts g p_in p_out ew w G w' :
  (dyn = true → incr_closed P) → admits rs P dyn ew →
  generate_homophily_graph rs n dyn ts g p_in p_out ew w = Ok G w' →
  edges_sat P G.
Proof.
  intros Hc HP. unfold generate_homophily_graph. intros H.
  apply bind_Ok in H as (groups & w0 & _ & H).
  assert (edges_sat P (set_node_attributes groups
                         (add_nodes_from (range n) empty_graph))) as H0
    by (apply edges_sat_empty; simpl; by rewrite adj_add_nodes_from).
  destruct dyn.
  - specialize (Hc eq_refl).
    revert H. apply (forM_inv (λ G _, edges_sat P G)); [|done].
    intros t G1 w1 G2 w2 _ HG1 H. unfold homophily_step in H.
    apply bind_Ok in H as ([G3 ea] & w3 & Hsweep & H). inv_run H.
    revert Hsweep.
    apply (forM_inv (λ st _, edges_sat P st.1)); [|done].
    intros i st w4 st' w5 _ Hst
      [_ [->|(j & Hne & _ & Hl)]]%homophily_visit_cases; [done|].
    eapply linked_sat; [done| |done|done].
    apply HP; [done|]. apply fresh_some.
  - apply bind_Ok in H as (Gf & wf & Hloop & H). inv_run H.
    revert Hloop. apply (forM_inv (λ G _, edges_sat P G)); [|done].
    intros i G1 w1 G2 w2 _ HG1.
    apply (forM_inv (λ G _, edges_sat P G)); [|done].
    intros j G3 w3 G4 w4 _ HG3 [->|Hadd]%homophily_pair_cases; [done|].
    destruct Hadd as (gi & gj & u & a & Hne & _ & _ & _ & _ & Ha & ->).
    apply edges_sat_add_edge_kw; [done|]. by apply HP.
Qed.

Lemma scan_degrees_elem degrees cum r t T x :
  x ∈ scan_degrees degrees cum r t T → x ∈ T ∨ (x ≠ t ∧ x ∈ degrees.*1).
Proof.
  revert cum. induction degrees as [|[node deg] rest IH]; intros cum; simpl.
  - by left.
  - destruct (Qle_bool _ _).
    + destruct (decide (node ≠ t)); [|by left].
      rewrite elem_of_union, elem_of_singleton.
      intros [->|?]; [right; split; [done|by left]|by left].
    + intros [?|[? ?]]%IH; [by left|right; split; [done|by right]].
Qed.

Lemma choose_targets_elem fuel degrees total m t T w T' w' :
  choose_targets rs fuel degrees total m t T w = Ok T' w' →
  ∀ x, x ∈ T' → x ∈ T ∨ (x ≠ t ∧ x ∈ degrees.*1).
Proof.
  revert T w. induction fuel as [|fuel IH]; intros T w; simpl.
  - destruct (decide _); [done|]. intros [= <- _]. by left.
  - destruct (decide _); [|intros [= <- _]; by left].
    intros H. apply bind_Ok in H as (r & w1 & _ & H).
    intros x [Hx|Hx]%(IH _ _ H); [|by right].
    by apply scan_degrees_elem in Hx.
Qed.

Lemma seed_clique_sat P ew k G :
  admits rs P true ew → edges_sat P G → edges_sat P (seed_clique ew k G).
Proof.
  intros HP. unfold seed_clique.
  apply (foldl_inv (edges_sat P)). intros u G1 _.
  apply (foldl_inv (edges_sat P)). intros v G2 _ HG2.
  destruct (decide (u ≠ v)); [|done].
  apply edges_sat_add_edge_kw; [done|]. apply HP; [done|]. apply fresh_some.
Qed.

Lemma preferential_arrival_sat P fuel m ew k t G w G' w' :
  admits rs P true ew → edges_sat P G →
  preferential_arrival rs fuel m ew k t G w = Ok G' w' → edges_sat P G'.
Proof.
  intros HP HG H. unfold preferential_arrival in H.
  apply bind_Ok in H as (targets & w1 & Htargets & H). inv_run H.
  apply (foldl_inv (edges_sat P)).
  - intros target G1 Hin%elem_of_elements HG1.
    destruct (choose_targets_elem _ _ _ _ _ _ _ _ _ Htargets _ Hin)
      as [Hx|[Hx _]]; [by apply not_elem_of_empty in Hx|].
    destruct ew.
    + apply edges_sat_add_edge_kw; [done|]. by apply HP.
    + apply edges_sat_add_edge_bare; [done|]. apply HP; [done|by left].
  - intros e d. rewrite adj_add_node. apply HG.
Qed.

Lemma preferential_graph_sat P fuel n dyn ts m ew w G w' :
  ba_contract barabasi_albert_graph → admits rs P dyn ew →
  generate_preferential_attachment_graph rs barabasi_albert_graph
    fuel n dyn ts m ew w = Ok G w' →
  edges_sat P G.
Proof.
  intros Hba HP. unfold generate_preferential_attachment_graph.
  destruct dyn.
  - apply (forM_inv (λ G _, edges_sat P G)).
    + intros t G1 w1 G2 w2 _ HG1. by apply preferential_arrival_sat.
    + apply seed_clique_sat; [done|].
      apply edges_sat_empty. by rewrite adj_add_nodes_from.
  - intros H. apply bind_Ok in H as (B & w0 & HB & H).
    apply bind_Ok in H as (Gf & wf & Hloop & H). inv_run H.
    destruct (Hba _ _ _ _ _ HB) as [_ Hedges].
    revert Hloop. apply (forM_inv (λ G _, edges_sat P G)).
    + intros [u v] G1 w1 G2 w2 Hin HG1 H.
      destruct (Hedges _ _ Hin) as (Hne & _ & _).
      apply bind_Ok in H as (a & w2' & Ha%sample_weight_Ok & H).
      apply bind_Ok in H as (b & w3' & Hb%sample_weight_Ok & H). inv_run H.
      apply edges_sat_add_edge_kw; [apply edges_sat_add_edge_kw|];
        [done|by apply HP|by apply HP].
    + apply edges_sat_empty. by rewrite adj_add_nodes_from.
Qed.

(** *** The node set of a generated graph *)

Lemma range_snoc t : 0 ≤ t → range (t + 1) = range t ++ [t].
Proof.
  intros Ht. unfold range, range2. rewrite !Z.sub_0_r.
  rewrite seqZ_app by lia. f_equal.
Qed.

(** A loop over consecutive integers, with an invariant that follows the
    loop variable. *)
Lemma forM_seqZ_inv {S} (I : Z → S → world → Prop) (body : Z → S → M S)
    len :
  ∀ a s w s' w',
    (∀ t s w s' w', a ≤ t < a + len → I t s w →
                    body t s w = Ok s' w' → I (t + 1) s' w') →
    I a s w → forM (seqZ a len) body s w = Ok s' w' →
    I (a + Z.max 0 len) s' w'.
Proof.
  induction (Z.to_nat len) as [|k IH] eqn:Hk in len |- *;
    intros a s w s' w' Hbody HI Hrun.
  - rewrite seqZ_nil in Hrun by lia. simpl in Hrun. inv_run Hrun.
    by replace (a + Z.max 0 len) with a by lia.
  - rewrite seqZ_cons in Hrun by lia. simpl in Hrun.
    apply bind_Ok in Hrun as (s1 & w1 & H1 & H2).
    replace (a + Z.max 0 len)
      with (Z.succ a + Z.max 0 (Z.pred len)) by lia.
    eapply (IH (Z.pred len)); [lia| | |exact H2].
    + intros t ????? . apply Hbody. lia.
    + replace (Z.succ a) with (a + 1) by lia.
      eapply Hbody; [|done|done]. lia.
Qed.

Lemma random_graph_nodes n dyn ts p ew w G w' :
  generate_random_graph rs n dyn ts p ew w = Ok G w' → nodes G = range n.
Proof.
  unfold generate_random_graph. pose proof (nodes_range n) as H0.
  destruct dyn.
  - apply (forM_inv (λ G _, nodes G = range n)); [|done].
    intros t G1 w1 G2 w2 _ HG1 H. unfold random_step in H.
    apply bind_Ok in H as ([G3 ea] & w3 & Hsweep & H). inv_run H.
    revert Hsweep.
    apply (forM_inv (λ st _, nodes st.1 = range n)); [|done].
    intros i st w4 st' w5 Hi Hst
      [_ [->|(j & Hne & Hj & Hl)]]%random_visit_cases; [done|].
    rewrite <- Hst. eapply linked_nodes; [done| |]; rewrite Hst;
      [done|by apply elem_of_range].
  - intros H. apply bind_Ok in H as (Gf & wf & Hloop & H). inv_run H.
    revert Hloop. apply (forM_inv (λ G _, nodes G = range n)); [|done].
    intros i G1 w1 G2 w2 Hi HG1.
    apply (forM_inv (λ G _, nodes G = range n)); [|done].
    intros j G3 w3 G4 w4 Hj HG3
      [->|(kw & Hne & Hkw & ->)]%random_pair_cases; [done|].
    rewrite <- HG3. apply nodes_add_edge; by rewrite HG3.
Qed.

Lemma homophily_graph_nodes n dyn ts g p_in p_out ew w G w' :
  generate_homophily_graph rs n dyn ts g p_in p_out ew w = Ok G w' →
  nodes G = range n.
Proof.
  unfold generate_homophily_graph. intros H.
  apply bind_Ok in H as (groups & w0 & _ & H).
  assert (nodes (set_node_attributes groups
                   (add_nodes_from (range n) empty_graph)) = range n) as H0
    by apply nodes_range.
  destruct dyn.
  - revert H. apply (forM_inv (λ G _, nodes G = range n)); [|done].
    intros t G1 w1 G2 w2 _ HG1 H. unfold homophily_step in H.
    apply bind_Ok in H as ([G3 ea] & w3 & Hsweep & H). inv_run H.
    revert Hsweep.
    apply (forM_inv (λ st _, nodes st.1 = range n)); [|done].
    intros i st w4 st' w5 Hi Hst
      [_ [->|(j & Hne & Hj & Hl)]]%homophily_visit_cases; [done|].
    rewrite <- Hst. eapply linked_nodes; [done| |]; rewrite Hst;
      [done|by apply elem_of_range].
  - apply bind_Ok in H as (Gf & wf & Hloop & H). inv_run H.
    revert Hloop. apply (forM_inv (λ G _, nodes G = range n)); [|done].
    intros i G1 w1 G2 w2 Hi HG1.
    apply (forM_inv (λ G _, nodes G = range n)); [|done].
    intros j G3 w3 G4 w4 Hj HG3 [->|Hadd]%homophily_pair_cases; [done|].
    destruct Hadd as (gi & gj & u & a & _ & _ & _ & _ & _ & _ & ->).
    rewrite <- HG3. apply nodes_add_edge; by rewrite HG3.
Qed.

Lemma seed_clique_nodes ew k G :
  nodes G = range k → nodes (seed_clique ew k G) = range k.
Proof.
  unfold seed_clique.
  apply (foldl_inv (λ G, nodes G = range k)). intros u G1 Hu.
  apply (foldl_inv (λ G, nodes G = range k)). intros v G2 Hv HG2.
  destruct (decide (u ≠ v)); [|done].
  rewrite <- HG2. apply nodes_add_edge; by rewrite HG2.
Qed.

Lemma add_node_range t G :
  0 ≤ t → nodes G = range t → nodes (add_node t G) = range (t + 1).
Proof.
  intros Ht HG. unfold add_node. rewrite decide_False.
  - simpl. by rewrite HG, range_snoc.
  - rewrite HG, elem_of_range. lia.
Qed.

Lemma preferential_arrival_nodes fuel m ew k t G w G' w' :
  0 ≤ t → nodes G = range t →
  preferential_arrival rs fuel m ew k t G w = Ok G' w' →
  nodes G' = range (t + 1).
Proof.
  intros Ht HG H. unfold preferential_arrival in H.
  apply bind_Ok in H as (targets & w1 & Htargets & H). inv_run H.
  pose proof (add_node_range t G Ht HG) as HG1.
  apply (foldl_inv (λ G, nodes G = range (t + 1))); [|done].
  intros target G2 Hin%elem_of_elements HG2.
  destruct (choose_targets_elem _ _ _ _ _ _ _ _ _ Htargets _ Hin)
    as [Hx|[_ Hx]]; [by apply not_elem_of_empty in Hx|].
  unfold degree in Hx. rewrite <- list_fmap_compose in Hx.
  rewrite list_fmap_id in Hx.
  rewrite <- HG2. apply nodes_add_edge; rewrite HG2.
  - rewrite elem_of_range. lia.
  - by rewrite <- HG1.
Qed.

Lemma preferential_dynamic_nodes fuel n ts m ew w G w' :
  0 ≤ m →
  generate_preferential_attachment_graph rs barabasi_albert_graph
    fuel n true ts m ew w = Ok G w' →
  nodes G = range (Z.max n (m + 1)).
Proof.
  intros Hm H. unfold generate_preferential_attachment_graph in H.
  unfold range2 in H.
  apply (forM_seqZ_inv (λ t G _, m + 1 ≤ t ∧ nodes G = range t)) in H.
  - destruct H as [_ ->]. f_equal. lia.
  - intros t G1 w1 G2 w2 Ht [Hle HG1] Harr. split; [lia|].
    eapply preferential_arrival_nodes; [|done|done]. lia.
  - split; [lia|]. apply seed_clique_nodes, nodes_range.
Qed.

Lemma preferential_static_nodes fuel n ts m ew w G w' :
  ba_contract barabasi_albert_graph →
  generate_preferential_attachment_graph rs barabasi_albert_graph
    fuel n false ts m ew w = Ok G w' →
  nodes G = range n.
Proof.
  intros Hba H. unfold generate_preferential_attachment_graph in H.
  apply bind_Ok in H as (B & w0 & HB & H).
  apply bind_Ok in H as (Gf & wf & Hloop & H). inv_run H.
  destruct (Hba _ _ _ _ _ HB) as [Hnodes Hedges].
  revert Hloop. apply (forM_inv (λ G _, nodes G = range n)).
  - intros [u v] G1 w1 G2 w2 Hin HG1 H.
    destruct (Hedges _ _ Hin) as (_ & Hu & Hv).
    apply bind_Ok in H as (a & w2' & _ & H).
    apply bind_Ok in H as (b & w3' & _ & H). inv_run H.
    rewrite !nodes_add_edge; rewrite ?nodes_add_edge;
      rewrite ?HG1; done.
  - rewrite Hnodes. apply nodes_range.
Qed.

(** *** The stream contract and the group dictionary *)

Lemma Qltb_zero u p : (p == 0)%Q → (0 <= u)%Q → Qltb u p = false.
Proof.
  intros Hp Hu. unfold Qltb. apply negb_false_iff, Qle_bool_iff.
  by rewrite Hp.
Qed.

Lemma assign_groups_loop l g (groups : gmap Z Z) w :
  g ≠ 0 →
  forM l (λ i (groups : gmap Z Z),
            if decide (g = 0) then raise ZeroDivisionError
            else ret (<[i := i `mod` g]> groups)) groups w
  = Ok (foldl (λ (groups : gmap Z Z) i, <[i := i `mod` g]> groups)
          groups l) w.
Proof.
  intros Hg. revert groups. induction l as [|i l IH]; intros groups; simpl.
  - done.
  - unfold bind at 1. rewrite decide_False by done. apply IH.
Qed.

Lemma assign_groups_lookup l g (groups : gmap Z Z) i :
  foldl (λ (groups : gmap Z Z) i, <[i := i `mod` g]> groups) groups l !! i =
  if decide (i ∈ l) then Some (i `mod` g) else groups !! i.
Proof.
  revert groups. induction l as [|k l IH]; intros groups; cbn [foldl].
  - rewrite decide_False; [done|apply not_elem_of_nil].
  - rewrite IH. destruct (decide (i ∈ l)) as [Hin|Hout].
    + rewrite decide_True; [done|by right].
    + destruct (decide (i = k)) as [->|Hne].
      * rewrite decide_True by (by left). by rewrite lookup_insert_eq.
      * rewrite decide_False.
        { by rewrite lookup_insert_ne. }
        rewrite elem_of_cons. by intros [?|?].
Qed.

Lemma assign_groups_Ok n g w groups w' :
  assign_groups n g w = Ok groups w' → w' = w ∧ groups_spec n g groups.
Proof.
  unfold assign_groups. assert (g = 0 ∨ g ≠ 0) as [->|Hg] by lia.
  - destruct (range n) as [|i l] eqn:Hl; cbn [forM].
    + intros [= <- <-]. split; [done|]. intros i.
      rewrite Hl, decide_False; [done|apply not_elem_of_nil].
    + unfold bind. by rewrite decide_True.
  - rewrite assign_groups_loop by done. intros [= <- <-]. split; [done|].
    intros i. by rewrite assign_groups_lookup, lookup_empty.
Qed.

Lemma assign_groups_total n g w :
  g ≠ 0 ∨ n ≤ 0 →
  ∃ groups, assign_groups n g w = Ok groups w ∧ groups_spec n g groups.
Proof.
  intros Hgn.
  enough (∃ groups, assign_groups n g w = Ok groups w) as [groups H].
  { exists groups. split; [done|]. by apply assign_groups_Ok in H as [_ ?]. }
  unfold assign_groups. assert (g = 0 ∨ g ≠ 0) as [->|Hg] by lia.
  - destruct Hgn as [?|Hn]; [done|]. unfold range, range2.
    rewrite seqZ_nil by lia. by eexists.
  - rewrite assign_groups_loop by done. by eexists.
Qed.

Lemma getitem_spec n g groups i w :
  groups_spec n g groups → i ∈ range n →
  getitem groups i w = Ok (i `mod` g) w.
Proof.
  intros Hs Hi. unfold getitem. by rewrite Hs, decide_True.
Qed.

(** *** Runs that add no edge *)

Lemma random_static_zero n ts p ew w :
  valid_stream rs → (p == 0)%Q →
  ∃ w', generate_random_graph rs n false ts p ew w
        = Ok (add_nodes_from (range n) empty_graph) w'.
Proof.
  intros Hv Hp. unfold generate_random_graph.
  set (G0 := add_nodes_from (range n) empty_graph).
  destruct (forM_total (λ G _, G = G0) (range n)
              (λ i G, forM (range n) (random_pair rs p ew i) G))
    with (s := G0) (w := w) as (G & w1 & Hrun & ->); [|done|].
  - intros i G w1 _ ->.
    apply (forM_total (λ G _, G = G0)); [|done].
    intros j G w2 _ ->. unfold random_pair.
    destruct (decide (i = j)); [by eexists _, _|].
    unfold bind. simpl. rewrite Qltb_zero; [by eexists _, _|done|apply Hv].
  - eexists. unfold bind. by rewrite Hrun.
Qed.

Lemma homophily_static_zero n ts g p_in p_out ew w :
  valid_stream rs → g ≠ 0 ∨ n ≤ 0 → (p_in == 0)%Q → (p_out == 0)%Q →
  ∃ groups w',
    generate_homophily_graph rs n false ts g p_in p_out ew w
    = Ok (set_node_attributes groups
            (add_nodes_from (range n) empty_graph)) w'.
Proof.
  intros Hv Hg Hin Hout. unfold generate_homophily_graph.
  destruct (assign_groups_total n g w Hg) as (groups & Hgr & Hspec).
  exists groups.
  set (G0 := set_node_attributes groups _).
  destruct (forM_total (λ G _, G = G0) (range n)
              (λ i G, forM (range n)
                        (homophily_pair rs groups p_in p_out ew i) G))
    with (s := G0) (w := w) as (G & w1 & Hrun & ->); [|done|].
  - intros i G w1 Hi ->.
    apply (forM_total (λ G _, G = G0)); [|done].
    intros j G w2 Hj ->. unfold homophily_pair.
    destruct (decide (i = j)); [by eexists _, _|].
    unfold bind at 1. rewrite (getitem_spec n g) by done.
    unfold bind at 1. rewrite (getitem_spec n g) by done.
    destruct (decide _); unfold bind; simpl;
      (rewrite Qltb_zero; [by eexists _, _|done|apply Hv]).
  - eexists. unfold bind at 1. rewrite Hgr.
    unfold bind. fold G0. by rewrite Hrun.
Qed.

(** *** The per-step report *)

Lemma random_step_report n p ew t G w G' w' :
  random_step rs n p ew t G w = Ok G' w' →
  stdout w' = stdout w
              ++ [StepRandom t (number_of_edges G' - number_of_edges G)].
Proof.
  unfold random_step. intros H.
  apply bind_Ok in H as ([G1 ea] & w1 & Hsweep & H).
  apply bind_Ok in H as ([] & w2 & [= <-] & H). inv_run H. simpl.
  apply (forM_inv (λ st w1, stdout w1 = stdout w ∧
            number_of_edges st.1 - st.2 = number_of_edges G)) in Hsweep.
  - destruct Hsweep as [-> Hc]. simpl in Hc.
    by replace ea with (number_of_edges G1 - number_of_edges G) by lia.
  - intros i st w3 st' w4 _ [Hw Hc]
      [Hw' [->|(j & _ & _ & Hl)]]%random_visit_cases.
    + split; [congruence|done].
    + split; [congruence|]. by rewrite (linked_count _ _ _ _ _ _ Hl).
  - split; [done|]. simpl. lia.
Qed.

Lemma homophily_step_report n groups p_in p_out ew t G w G' w' :
  homophily_step rs n groups p_in p_out ew t G w = Ok G' w' →
  stdout w' = stdout w
              ++ [StepHomophily t (number_of_edges G' - number_of_edges G)].
Proof.
  unfold homophily_step. intros H.
  apply bind_Ok in H as ([G1 ea] & w1 & Hsweep & H).
  apply bind_Ok in H as ([] & w2 & [= <-] & H). inv_run H. simpl.
  apply (forM_inv (λ st w1, stdout w1 = stdout w ∧
            number_of_edges st.1 - st.2 = number_of_edges G)) in Hsweep.
  - destruct Hsweep as [-> Hc]. simpl in Hc.
    by replace ea with (number_of_edges G1 - number_of_edges G) by lia.
  - intros i st w3 st' w4 _ [Hw Hc]
      [Hw' [->|(j & _ & _ & Hl)]]%homophily_visit_cases.
    + split; [congruence|done].
    + split; [congruence|]. by rewrite (linked_count _ _ _ _ _ _ Hl).
  - split; [done|]. simpl. lia.
Qed.

(** *** Static homophily: which pairs are linked *)

Lemma node_group_add_edge u v kw G :
  node_group (add_edge u v kw G) = node_group G.
Proof. unfold add_edge, add_node. simpl. by repeat destruct (decide _). Qed.

Lemma node_group_add_nodes_from l G :
  node_group (add_nodes_from l G) = node_group G.
Proof.
  unfold add_nodes_from.
  apply (foldl_inv (λ G', node_group G' = node_group G)); [|done].
  intros a G1 _ <-. unfold add_node. by destruct (decide _).
Qed.

Lemma groups_spec_Some n g groups i x :
  groups_spec n g groups → groups !! i = Some x →
  i ∈ range n ∧ x = i `mod` g.
Proof.
  intros Hs. rewrite Hs. destruct (decide _); [|done]. by intros [= <-].
Qed.

Lemma node_group_initial n g groups :
  groups_spec n g groups →
  node_group (set_node_attributes groups
                (add_nodes_from (range n) empty_graph)) = groups.
Proof.
  intros Hs. simpl. rewrite node_group_add_nodes_from. simpl.
  rewrite (right_id_L ∅ (∪)). apply map_eq. intros i. apply option_eq.
  intros x. rewrite map_lookup_filter_Some, nodes_range. simpl.
  split; [by intros [? _]|]. intros Hx. split; [done|].
  by apply (groups_spec_Some _ _ _ _ _ Hs) in Hx as [? _].
Qed.

Lemma homophily_static_linked (P : Z → Z → Prop) n ts g p_in p_out ew
    w G w' :
  (∀ i j u, i ≠ j → i ∈ range n → j ∈ range n → (∃ c, u = unif (rs c)) →
            Qltb u (if decide (i `mod` g = j `mod` g) then p_in else p_out)
            = true → P i j) →
  generate_homophily_graph rs n false ts g p_in p_out ew w = Ok G w' →
  groups_spec n g (node_group G) ∧
  ∀ i j, is_Some (adj G !! (i, j)) → P i j.
Proof.
  intros HP H. unfold generate_homophily_graph in H.
  apply bind_Ok in H as (groups & w0 & [-> Hs]%assign_groups_Ok & H).
  apply bind_Ok in H as (Gf & wf & Hloop & H). inv_run H.
  pose proof (node_group_initial n g groups Hs) as H0.
  set (I := λ (G : DiGraph) (_ : world),
         node_group G = groups ∧ edges_sat (λ e _, P e.1 e.2) G).
  enough (I Gf wf) as [HG Hsat].
  { split; [by rewrite HG|]. intros i j [d Hd]. apply (Hsat _ _ Hd). }
  revert Hloop. apply (forM_inv I).
  - intros i G1 w1 G2 w2 Hi HG1. apply (forM_inv I); [|done].
    intros j G3 w3 G4 w4 Hj [HG3 Hsat3] [->|Hadd]%homophily_pair_cases;
      [done|].
    destruct Hadd as (gi & gj & u & a & Hne & Hgi & Hgj & Hu & Hlt & _ & ->).
    apply (groups_spec_Some _ _ _ _ _ Hs) in Hgi as [_ ->].
    apply (groups_spec_Some _ _ _ _ _ Hs) in Hgj as [_ ->].
    split; [by rewrite node_group_add_edge|].
    apply edges_sat_add_edge_kw; [done|]. simpl. by eapply HP.
  - split; [done|]. apply edges_sat_empty. simpl.
    by rewrite adj_add_nodes_from.
Qed.

(** *** Selections and weights in the dynamic weighted runs *)

Lemma occurrences_app e tr1 tr2 :
  occurrences e (tr1 ++ tr2) = occurrences e tr1 + occurrences e tr2.
Proof. unfold occurrences. rewrite filter_app, length_app. lia. Qed.

Lemma occurrences_nil e : occurrences e [] = 0.
Proof. done. Qed.

Lemma occurrences_one e e' :
  occurrences e [e'] = if decide (e = e') then 1 else 0.
Proof.
  unfold occurrences. rewrite filter_cons, filter_nil.
  destruct (decide (e' = e)) as [->|Hne]; simpl.
  - by rewrite decide_True.
  - by rewrite decide_False.
Qed.

Lemma picks_app pick l1 l2 c :
  picks pick (l1 ++ l2) c =
  rbind (picks pick l1) (λ tr1,
    rbind (picks pick l2) (λ tr2, rret (tr1 ++ tr2))) c.
Proof.
  revert c. induction l1 as [|i l1 IH]; intros c; simpl;
    unfold rbind, rret in *.
  - by destruct (picks pick l2 c) as [|[]].
  - destruct (pick i c) as [e|[o c1]]; [done|]. rewrite IH.
    destruct (picks pick l1 c1) as [e|[tr1 c2]]; [done|].
    destruct (picks pick l2 c2) as [e|[tr2 c3]]; [done|].
    by rewrite app_assoc.
Qed.

Lemma counted_incr_closed :
  incr_closed (λ (_ : Z * Z) d, ∃ k, d = Some (VInt k) ∧ 1 ≤ k).
Proof.
  split.
  - intros _ k (k' & [= <-] & Hk). exists (k + 1). split; [done|lia].
  - by intros _ q (k' & [=] & _).
Qed.

Lemma weight_of_absent G e : counted G → weight_of G e = 0 → adj G !! e = None.
Proof.
  intros HG. unfold weight_of.
  destruct (adj G !! e) as [d|] eqn:E; [|done].
  destruct (HG _ _ E) as (k & -> & Hk). lia.
Qed.

Lemma weight_of_present G e :
  counted G → weight_of G e ≠ 0 →
  adj G !! e = Some (Some (VInt (weight_of G e))).
Proof.
  intros HG. unfold weight_of.
  destruct (adj G !! e) as [d|] eqn:E; [|done].
  by destruct (HG _ _ E) as (k & -> & Hk).
Qed.

(** A selection adds exactly 1 to the weight of the selected pair and
    leaves every other weight alone. *)
Lemma linked_weight i j st st' :
  counted st.1 → linked true (Some (VInt 1)) i j st st' →
  counted st'.1 ∧
  ∀ e, weight_of st'.1 e = weight_of st.1 e + occurrences e [(i, j)].
Proof.
  intros HG Hl. split.
  { eapply linked_sat; [apply counted_incr_closed| |done|done].
    simpl. exists 1. split; [done|lia]. }
  intros e. rewrite occurrences_one. unfold weight_of.
  destruct Hl as [([d Hd] & _ & w & H) | (Hout & _ & ->)].
  - destruct (HG _ _ Hd) as (k & -> & Hk).
    unfold incr_weight in H. rewrite Hd in H. injection H as <-. simpl.
    destruct (decide (e = (i, j))) as [->|Hne].
    + by rewrite lookup_insert_eq, Hd.
    + rewrite lookup_insert_ne by done. lia.
  - simpl. destruct (decide (e = (i, j))) as [->|Hne].
    + by rewrite lookup_insert_eq, Hout.
    + rewrite lookup_insert_ne by done. lia.
Qed.

Lemma homophily_link_total i j G ea w :
  counted G →
  ∃ st', homophily_link true i j (G, ea) w = Ok st' w ∧
         linked true (Some (VInt 1)) i j (G, ea) st'.
Proof.
  intros HG.
  enough (∃ st', homophily_link true i j (G, ea) w = Ok st' w)
    as [st' H].
  { exists st'. split; [done|]. by apply homophily_link_linked in H as [_ ?]. }
  unfold homophily_link, has_edge. case_bool_decide as Hin.
  - destruct Hin as [d Hd]. destruct (HG _ _ Hd) as (k & -> & _).
    unfold bind, incr_weight. rewrite Hd. by eexists.
  - by eexists.
Qed.

Lemma random_visit_follows n p i :
  0 < n → follows (random_visit rs n p true i) (random_pick rs n p i).
Proof.
  intros Hn [G ea] w HG.
  unfold random_visit, random_pick, rbind, rand_random, bind, random, lift.
  simpl. destruct (Qltb _ p).
  - unfold randrange, lift, rand_randrange. simpl.
    rewrite decide_False by lia. simpl.
    destruct (decide (_ = i)) as [Hj|Hj].
    + eexists None, _, _. by repeat split.
    + destruct (homophily_link_total i (bits (rs (S (cursor w))) `mod` n)
                  G ea (set_cursor (S (S (cursor w))) w) HG)
        as (st' & Hrun & Hl).
      eexists (Some (i, _)), _, st'. split; [done|]. split; [|done].
      exact Hrun.
  - eexists None, _, _. by repeat split.
Qed.

Lemma homophily_visit_follows n g groups p_in p_out i :
  groups_spec n g groups → i ∈ range n →
  follows (homophily_visit rs n groups p_in p_out true i)
          (homophily_pick rs n g p_in p_out i).
Proof.
  intros Hs Hi [G ea] w HG. apply elem_of_range in Hi as Hn.
  unfold homophily_visit, homophily_pick, rbind, bind.
  unfold randrange, lift, rand_randrange. simpl.
  rewrite decide_False by lia. simpl.
  set (j := bits (rs (cursor w)) `mod` n).
  assert (j ∈ range n) as Hj
    by (apply elem_of_range, Z.mod_pos_bound; lia).
  destruct (decide (j = i)) as [Hji|Hji].
  { eexists None, _, _. by repeat split. }
  rewrite !(getitem_spec n g) by done.
  set (w1 := set_cursor (S (cursor w)) w).
  assert (∀ q, ∃ o c' st',
            (inr (if Qltb (unif (rs (cursor w1))) q then Some (i, j)
                  else None, S (cursor w1)) : exn + _)
            = inr (o, c') ∧
            (if Qltb (unif (rs (cursor w1))) q
             then homophily_link true i j (G, ea)
             else ret (G, ea)) (set_cursor (S (cursor w1)) w1)
            = Ok st' (set_cursor c' w) ∧
            match o with
            | None => st' = (G, ea)
            | Some e => linked true (Some (VInt 1)) e.1 e.2 (G, ea) st'
            end) as Hq.
  { intros q. destruct (Qltb _ q).
    - destruct (homophily_link_total i j G ea
                  (set_cursor (S (cursor w1)) w1) HG) as (st' & Hrun & Hl).
      eexists (Some (i, j)), _, st'. by repeat split.
    - eexists None, _, _. by repeat split. }
  destruct (decide (i `mod` g = j `mod` g)); apply Hq.
Qed.

Lemma set_cursor_id w : set_cursor (cursor w) w = w.
Proof. by destruct w. Qed.

Section Reinforcement.

Variable visit : Z → DiGraph * Z → M (DiGraph * Z).
Variable pick : Z → Rand (option (Z * Z)).
Variable report : Z → Z → line.
Variable step : Z → DiGraph → M DiGraph.
Variable n : Z.

Hypothesis visit_follows : ∀ i, i ∈ range n → follows (visit i) (pick i).
Hypothesis step_unfold : ∀ t G w,
  step t G w =
  ('(G', edges_added) <- forM (range n) visit (G, 0) ;;
   print (report t edges_added) ;; ret G') w.

Lemma sweep_follows l st w :
  (∀ i, i ∈ l → i ∈ range n) → counted st.1 →
  ∃ tr c' st',
    picks pick l (cursor w) = inr (tr, c') ∧
    forM l visit st w = Ok st' (set_cursor c' w) ∧
    counted st'.1 ∧
    ∀ e, weight_of st'.1 e = weight_of st.1 e + occurrences e tr.
Proof.
  revert st w. induction l as [|i l IH]; intros st w Hl Hst; simpl.
  - exists [], (cursor w), st. rewrite set_cursor_id.
    repeat split; [done|]. intros e. rewrite occurrences_nil. lia.
  - destruct (visit_follows i (Hl i (list_elem_of_here _ _)) st w Hst)
      as (o & c1 & st1 & Hpick & Hvisit & Ho).
    assert (counted st1.1 ∧
            ∀ e, weight_of st1.1 e
                 = weight_of st.1 e + occurrences e (option_list o))
      as [Hst1 Hw1].
    { destruct o as [[a b]|]; simpl in Ho.
      - by apply linked_weight.
      - subst st1. split; [done|]. intros e. simpl.
        rewrite occurrences_nil. lia. }
    destruct (IH st1 (set_cursor c1 w)
                (λ k Hk, Hl k (list_elem_of_further _ _ _ Hk)) Hst1)
      as (tr & c' & st' & Hpicks & Hrun & Hst' & Hw').
    exists (option_list o ++ tr), c', st'.
    unfold rbind, bind. rewrite Hpick, Hvisit. simpl in Hpicks.
    rewrite Hpicks, Hrun. repeat split; [done|].
    intros e. rewrite Hw', Hw1, occurrences_app. lia.
Qed.

Lemma run_follows steps G w :
  counted G →
  ∃ tr G' w',
    picks pick (visits n steps) (cursor w) = inr (tr, cursor w') ∧
    forM steps step G w = Ok G' w' ∧
    files w' = files w ∧
    counted G' ∧
    ∀ e, weight_of G' e = weight_of G e + occurrences e tr.
Proof.
  revert G w. induction steps as [|t steps IH]; intros G w HG.
  - exists [], G, w. repeat split; [done|]. intros e.
    rewrite occurrences_nil. lia.
  - destruct (sweep_follows (range n) (G, 0) w (λ _ H, H) HG)
      as (tr1 & c1 & [G1 ea] & Hpicks1 & Hsweep & HG1 & Hw1).
    set (w1 := mkWorld c1 (stdout w ++ [report t ea]) (files w)).
    destruct (IH G1 w1 HG1) as (tr2 & G' & w' & Hpicks2 & Hrun & Hf & HG' & Hw').
    exists (tr1 ++ tr2), G', w'.
    change (visits n (t :: steps)) with (range n ++ visits n steps).
    rewrite picks_app. unfold rbind at 1.
    rewrite Hpicks1. unfold rbind at 1.
    change (cursor w1) with c1 in Hpicks2. rewrite Hpicks2. unfold rret.
    split; [done|]. split.
    { cbn [forM]. unfold bind at 1. rewrite step_unfold. unfold bind at 1.
      rewrite Hsweep. exact Hrun. }
    split; [by rewrite Hf|]. split; [done|].
    intros e. rewrite Hw', Hw1, occurrences_app. simpl. lia.
Qed.

End Reinforcement.

Lemma counted_initial n groups :
  counted (set_node_attributes groups (add_nodes_from (range n) empty_graph))
  ∧ counted (add_nodes_from (range n) empty_graph).
Proof.
  split; apply edges_sat_empty; simpl; by rewrite adj_add_nodes_from.
Qed.

Lemma weight_of_initial n groups e :
  weight_of (set_node_attributes groups
               (add_nodes_from (range n) empty_graph)) e = 0
  ∧ weight_of (add_nodes_from (range n) empty_graph) e = 0.
Proof.
  split; unfold weight_of; simpl; rewrite adj_add_nodes_from; simpl;
    by rewrite lookup_empty.
Qed.

(** *** The arrivals of dynamic preferential attachment *)

Lemma scan_degrees_size degrees cum r t (T : gset Z) :
  (size (scan_degrees degrees cum r t T) ≤ size T + 1)%nat.
Proof.
  revert cum. induction degrees as [|[node deg] rest IH]; intros cum; simpl.
  - lia.
  - destruct (Qle_bool _ _); [|apply IH].
    destruct (decide (node ≠ t)); [|lia].
    rewrite size_union_alt, size_singleton.
    assert (T ∖ {[node]} ⊆ T) as Hsub by (by apply subseteq_difference_l).
    apply subseteq_size in Hsub. lia.
Qed.

Lemma choose_targets_Ok fuel degrees total m t T w T' w' :
  choose_targets rs fuel degrees total m t T w = Ok T' w' →
  stdout w' = stdout w ∧ files w' = files w ∧
  (Z.of_nat (size T) ≤ Z.max 0 m → Z.of_nat (size T') = Z.max 0 m).
Proof.
  revert T w. induction fuel as [|fuel IH]; intros T w; simpl.
  - destruct (decide _); [done|]. intros [= <- <-]. repeat split. lia.
  - destruct (decide _) as [Hlt|Hge];
      [|intros [= <- <-]; repeat split; lia].
    intros H. apply bind_Ok in H as (r & w1 & Hr & H).
    unfold uniform in Hr.
    apply bind_Ok in Hr as (u & w2 & [_ ->]%random_Ok & Hr). inv_run Hr.
    apply IH in H as (Hout & Hfiles & Hsize).
    split; [done|]. split; [done|]. intros _. apply Hsize.
    pose proof (scan_degrees_size degrees 0
                  (0 + (inject_Z total - 0) * u)%Q t T).
    lia.
Qed.

Lemma preferential_arrival_stdout fuel m ew t G w G' w' :
  preferential_arrival rs fuel m ew (m + 1) t G w = Ok G' w' →
  stdout w' = stdout w ++ [arrival_line m t].
Proof.
  unfold preferential_arrival. intros H.
  apply bind_Ok in H as (targets & w1 & Htargets & H).
  apply choose_targets_Ok in Htargets as (Hout & _ & Hsize).
  apply bind_Ok in H as ([] & w2 & [= <-] & H). inv_run H. simpl.
  rewrite Hout. unfold arrival_line. rewrite Hsize; [done|].
  rewrite size_empty. lia.
Qed.

Lemma preferential_dynamic_stdout fuel n ts m ew w G w' :
  generate_preferential_attachment_graph rs barabasi_albert_graph
    fuel n true ts m ew w = Ok G w' →
  stdout w' = stdout w ++ (arrival_line m <$> range2 (m + 1) n).
Proof.
  unfold generate_preferential_attachment_graph, range2. intros H.
  apply (forM_seqZ_inv (λ t _ w1, m + 1 ≤ t ∧
           stdout w1 = stdout w
                       ++ (arrival_line m <$> seqZ (m + 1) (t - (m + 1)))))
    in H.
  - destruct H as [_ ->]. f_equal.
    destruct (decide (0 ≤ n - (m + 1))).
    + do 2 f_equal. lia.
    + by rewrite !seqZ_nil by lia.
  - intros t G1 w1 G2 w2 Ht [Hle Hout] Harr. split; [lia|].
    rewrite (preferential_arrival_stdout _ _ _ _ _ _ _ _ Harr), Hout.
    rewrite <- app_assoc. f_equal.
    replace (t + 1 - (m + 1)) with ((t - (m + 1)) + 1) by lia.
    rewrite seqZ_app by lia. rewrite fmap_app. f_equal.
    replace (m + 1 + (t - (m + 1))) with t by lia. done.
  - split; [lia|]. rewrite Z.sub_diag. simpl. by rewrite app_nil_r.
Qed.

(** *** An empty population *)

Lemma range_empty n : n ≤ 0 → range n = [].
Proof. intros Hn. unfold range, range2. by rewrite seqZ_nil by lia. Qed.

Lemma random_graph_empty n dyn ts p ew w :
  n ≤ 0 →
  ∃ G w', generate_random_graph rs n dyn ts p ew w = Ok G w' ∧
          files w' = files w ∧ nodes G = [] ∧ adj G = ∅.
Proof.
  intros Hn. unfold generate_random_graph. rewrite (range_empty n Hn).
  simpl. destruct dyn.
  - destruct (forM_total (λ G w1, G = empty_graph ∧ files w1 = files w)
                (range2 1 (ts + 1)) (random_step rs n p ew))
      with (s := empty_graph) (w := w) as (G & w' & Hrun & -> & Hf);
      [|done|by exists empty_graph, w'].
    intros t G w1 _ [-> Hf]. unfold random_step.
    rewrite (range_empty n Hn). by eexists _, _.
  - by eexists _, _.
Qed.

Lemma homophily_graph_empty n dyn ts g p_in p_out ew w :
  n ≤ 0 →
  ∃ G w', generate_homophily_graph rs n dyn ts g p_in p_out ew w = Ok G w' ∧
          files w' = files w ∧ nodes G = [] ∧ adj G = ∅.
Proof.
  intros Hn. unfold generate_homophily_graph, assign_groups.
  rewrite (range_empty n Hn). simpl. unfold bind at 1. simpl.
  set (G0 := set_node_attributes ∅ empty_graph). destruct dyn.
  - destruct (forM_total (λ G w1, G = G0 ∧ files w1 = files w)
                (range2 1 (ts + 1))
                (homophily_step rs n ∅ p_in p_out ew))
      with (s := G0) (w := w) as (G & w' & Hrun & -> & Hf);
      [|done|by exists G0, w'].
    intros t G w1 _ [-> Hf]. unfold homophily_step.
    rewrite (range_empty n Hn). by eexists _, _.
  - by eexists _, _.
Qed.

(** *** main *)

Lemma main_unknown fuel cfg w :
  strategy_of cfg ≠ "random" →
  strategy_of cfg ≠ "preferential_attachment" →
  strategy_of cfg ≠ "preferential" →
  strategy_of cfg ≠ "homophily" →
  main rs barabasi_albert_graph fuel cfg w = Raise ValueError w.
Proof.
  unfold strategy_of. intros H1 H2 H3 H4. unfold main.
  rewrite (decide_False (P := _ = "random")) by done.
  rewrite (decide_False (P := _ ∨ _)) by (by intros [?|?]).
  by rewrite (decide_False (P := _ = "homophily")) by done.
Qed.

(** Once a generator has returned, [main] writes the graph and ends. *)
Lemma main_finish fuel cfg w G w1 :
  (strategy_of cfg = "random" ∧
   generate_random_graph rs (get (cfg_num_agents cfg) 100)
     (get (cfg_dynamic cfg) false) (get (cfg_time_steps cfg) 1)
     (get (cfg_p cfg) float_0_1) (get (cfg_edge_weights cfg) false) w
   = Ok G w1)
  ∨ (strategy_of cfg = "homophily" ∧
     generate_homophily_graph rs (get (cfg_num_agents cfg) 100)
       (get (cfg_dynamic cfg) false) (get (cfg_time_steps cfg) 1)
       (get (cfg_homophily_groups cfg) 2) (get (cfg_p_in cfg) float_0_1)
       (get (cfg_p_out cfg) float_0_01)
       (get (cfg_edge_weights cfg) false) w
     = Ok G w1) →
  ∃ name w2,
    main rs barabasi_albert_graph fuel cfg w = Ok () w2 ∧
    written name ∧ files w2 = files w1 ++ [(name, G)].
Proof.
  unfold strategy_of, written, main. intros [[Hs Hgen]|[Hs Hgen]];
    rewrite Hs; simpl; unfold bind at 1; rewrite Hgen;
    repeat destruct (decide _); destruct (get (cfg_edge_weights cfg) false);
    eexists _, _; (split; [reflexivity|]); simpl; (split; [|reflexivity]);
    try match goal with E : lower _ = _ |- _ => rewrite E end; simpl; auto.
Qed.

(** *** The static passes always return *)

Lemma random_static_total n ts p ew w :
  ∃ G w', generate_random_graph rs n false ts p ew w = Ok G w'.
Proof.
  unfold generate_random_graph.
  destruct (forM_total (λ _ _, True) (range n)
              (λ i G, forM (range n) (random_pair rs p ew i) G))
    with (s := add_nodes_from (range n) empty_graph) (w := w)
    as (G & w1 & Hrun & _); [|done|].
  - intros i G w1 _ _. apply (forM_total (λ _ _, True)); [|done].
    intros j G1 w2 _ _. unfold random_pair.
    destruct (decide (i = j)); [by eexists _, _|].
    unfold bind. simpl. destruct (Qltb _ p); [|by eexists _, _].
    destruct ew; by eexists _, _.
  - eexists _, _. unfold bind. by rewrite Hrun.
Qed.

Lemma homophily_static_total n ts g p_in p_out ew w :
  g ≠ 0 ∨ n ≤ 0 →
  ∃ G w', generate_homophily_graph rs n false ts g p_in p_out ew w = Ok G w'.
Proof.
  intros Hg. unfold generate_homophily_graph.
  destruct (assign_groups_total n g w Hg) as (groups & Hgr & Hspec).
  destruct (forM_total (λ _ _, True) (range n)
              (λ i G, forM (range n)
                        (homophily_pair rs groups p_in p_out ew i) G))
    with (s := set_node_attributes groups
                 (add_nodes_from (range n) empty_graph)) (w := w)
    as (G & w1 & Hrun & _); [|done|].
  - intros i G w1 Hi _. apply (forM_total (λ _ _, True)); [|done].
    intros j G1 w2 Hj _. unfold homophily_pair.
    destruct (decide (i = j)); [by eexists _, _|].
    unfold bind at 1. rewrite (getitem_spec n g) by done.
    unfold bind at 1. rewrite (getitem_spec n g) by done.
    destruct (decide _); unfold bind; simpl;
      (destruct (Qltb _ _); [|by eexists _, _]);
      destruct ew; by eexists _, _.
  - eexists _, _. unfold bind at 1. rewrite Hgr.
    unfold bind. by rewrite Hrun.
Qed.

End Runs.

(** ** Termination of dynamic preferential attachment *)

Section Termination.

Variable rs : nat → draw.
Variable barabasi_albert_graph : Z → Z → M Graph.

Lemma forM_seqZ_total {S} (I : Z → S → world → Prop) (body : Z → S → M S)
    len :
  ∀ a s w,
    (∀ t s w, a ≤ t < a + len → I t s w →
              ∃ s' w', body t s w = Ok s' w' ∧ I (t + 1) s' w') →
    I a s w → ∃ s' w', forM (seqZ a len) body s w = Ok s' w'.
Proof.
  induction (Z.to_nat len) as [|k IH] eqn:Hk in len |- *;
    intros a s w Hbody HI.
  - rewrite seqZ_nil by lia. by eexists _, _.
  - rewrite seqZ_cons by lia. simpl.
    destruct (Hbody a s w) as (s1 & w1 & H1 & HI1); [lia|done|].
    destruct (IH (Z.pred len) ltac:(lia) (Z.succ a) s1 w1)
      as (s' & w' & H2).
    + intros t ????. apply Hbody; [lia|done].
    + by replace (Z.succ a) with (a + 1) by lia.
    + exists s', w'. unfold bind. by rewrite H1.
Qed.

Lemma choose_targets_done fuel degrees total m t T w :
  ¬ Z.of_nat (size T) < m →
  choose_targets rs fuel degrees total m t T w = Ok T w.
Proof. intros H. destruct fuel; simpl; by rewrite decide_False. Qed.

Lemma sum_values_app ds1 ds2 :
  sum_values (ds1 ++ ds2) = sum_values ds1 + sum_values ds2.
Proof.
  unfold sum_values. rewrite fmap_app, foldr_app.
  induction (ds1.*2) as [|x l IH]; simpl; lia.
Qed.

(** A draw that does not exceed the total of a non-empty prefix of the
    degree list stops the scan inside that prefix. *)
Lemma scan_degrees_stops ds rest cum r t T :
  ds ≠ [] → (r <= inject_Z (cum + sum_values ds))%Q →
  (∀ x, x ∈ ds.*1 → x ≠ t) →
  ∃ x, x ∈ ds.*1 ∧ scan_degrees (ds ++ rest) cum r t T = {[x]} ∪ T.
Proof.
  revert cum. induction ds as [|[node deg] ds IH]; intros cum Hne Hr Ht;
    [done|].
  simpl. destruct (Qle_bool r (inject_Z (cum + deg))) eqn:Hle.
  - exists node. split; [by left|].
    rewrite decide_True; [done|]. apply Ht. by left.
  - destruct ds as [|d ds'].
    + exfalso. unfold sum_values in Hr. simpl in Hr.
      rewrite Z.add_0_r in Hr. apply Qle_bool_iff in Hr. congruence.
    + destruct (IH (cum + deg)) as (x & Hx & Hscan); [done| |..].
      * unfold sum_values in *. cbn [fmap list_fmap foldr snd] in *.
        by rewrite <- Z.add_assoc.
      * intros x Hx. apply Ht. by right.
      * exists x. split; [by right|exact Hscan].
Qed.

Lemma uniform_below total u :
  0 ≤ total → (0 <= u < 1)%Q →
  (0 + (inject_Z total - 0) * u <= inject_Z (0 + total))%Q.
Proof.
  intros Ht [Hu0 Hu1]. rewrite Z.add_0_l.
  assert (0 + (inject_Z total - 0) * u == u * inject_Z total)%Q as ->
    by ring.
  apply Qle_trans with (1 * inject_Z total)%Q.
  - apply Qmult_le_compat_r; [by apply Qlt_le_weak|].
    change 0%Q with (inject_Z 0). by rewrite <- Zle_Qle.
  - rewrite Qmult_1_l. apply Qle_refl.
Qed.

Lemma degree_fresh_node t G :
  within t G → in_degree G t + out_degree G t = 0.
Proof.
  intros HG. unfold in_degree, out_degree.
  assert (∀ P : Z * Z * edge_data → Prop, ∀ `{∀ x, Decision (P x)},
            (∀ e d, P (e, d) → e.1 = t ∨ e.2 = t) →
            size (filter P (adj G)) = 0%nat) as Hz.
  { intros P ? HP. apply map_size_empty_iff, map_empty_filter.
    intros e d Hed HPe. destruct (HG _ _ Hed) as [H1 H2].
    rewrite elem_of_range in H1, H2.
    destruct (HP _ _ HPe) as [Heq|Heq]; lia. }
  rewrite !Hz; [done|intros e d; simpl; auto..].
Qed.

Lemma sum_values_nonneg G : 0 ≤ sum_values (degree G).
Proof.
  unfold sum_values, degree. rewrite <- list_fmap_compose.
  set (f := snd ∘ _).
  assert (∀ x, 0 ≤ f x) as Hf
    by (intros x; unfold f, in_degree, out_degree; simpl; lia).
  induction (nodes G) as [|x l IH]; [done|].
  rewrite fmap_cons. cbn [foldr]. specialize (Hf x). lia.
Qed.

Lemma within_mono t t' G : t ≤ t' → within t G → within t' G.
Proof.
  intros Ht HG e d Hed. destruct (HG _ _ Hed) as [H1 H2].
  rewrite !elem_of_range in *. lia.
Qed.

Lemma seed_clique_within ew k G :
  within k G → within k (seed_clique ew k G).
Proof.
  unfold seed_clique, within.
  apply (foldl_inv (edges_sat _)). intros u G1 Hu.
  apply (foldl_inv (edges_sat _)). intros v G2 Hv HG2.
  destruct (decide (u ≠ v)); [|done].
  by apply edges_sat_add_edge_kw.
Qed.

Lemma preferential_arrival_within fuel m ew k t G w G' w' :
  0 ≤ t → nodes G = range t → within t G →
  preferential_arrival rs fuel m ew k t G w = Ok G' w' →
  within (t + 1) G'.
Proof.
  intros Ht Hnodes HG H. unfold preferential_arrival in H.
  apply bind_Ok in H as (targets & w1 & Htargets & H). inv_run H.
  pose proof (add_node_range t G Ht Hnodes) as HG1.
  apply (foldl_inv (within (t + 1))).
  - intros target G2 Hin%elem_of_elements HG2.
    destruct (choose_targets_elem _ _ _ _ _ _ _ _ _ _ Htargets _ Hin)
      as [Hx|[_ Hx]]; [by apply not_elem_of_empty in Hx|].
    unfold degree in Hx. rewrite <- list_fmap_compose in Hx.
    rewrite list_fmap_id, HG1 in Hx.
    assert (t ∈ range (t + 1)) by (apply elem_of_range; lia).
    destruct ew.
    + by apply edges_sat_add_edge_kw.
    + by apply edges_sat_add_edge_bare.
  - intros e d. rewrite adj_add_node. intros Hed.
    by apply (within_mono t (t + 1) G ltac:(lia) HG e d).
Qed.

(** With at most one edge per arrival the redraw loop ends after its
    first draw. *)
Lemma preferential_arrival_total fuel m ew k t G w :
  valid_stream rs → m ≤ 1 → 1 ≤ t → nodes G = range t → within t G →
  ∃ G' w', preferential_arrival rs (S fuel) m ew k t G w = Ok G' w'.
Proof.
  intros Hv Hm Ht Hnodes HG. unfold preferential_arrival.
  enough (∃ T w1, choose_targets rs (S fuel) (degree (add_node t G))
                    (sum_values (degree (add_node t G))) m t ∅ w = Ok T w1)
    as (T & w1 & HT).
  { eexists _, _. unfold bind at 1. rewrite HT. reflexivity. }
  destruct (decide (m ≤ 0)) as [Hm0|Hm1].
  { eexists _, _. apply choose_targets_done. rewrite size_empty. lia. }
  assert (m = 1) as -> by lia.
  assert (degree (add_node t G)
          = degree G ++ [(t, 0)]) as Hdeg.
  { unfold add_node. rewrite decide_False
      by (rewrite Hnodes, elem_of_range; lia).
    unfold degree at 1. simpl. rewrite fmap_app. simpl.
    unfold in_degree, out_degree. simpl.
    by rewrite <- (degree_fresh_node t G HG). }
  rewrite Hdeg, sum_values_app.
  replace (sum_values [(t, 0)]) with 0 by done. rewrite Z.add_0_r.
  cbn [choose_targets]. rewrite decide_True by (rewrite size_empty; lia).
  unfold bind, uniform, bind, random, lift, rand_random. simpl.
  destruct (scan_degrees_stops (degree G) [(t, 0)] 0
              (0 + (inject_Z (sum_values (degree G)) - 0)
                   * unif (rs (cursor w)))%Q t ∅)
    as (x & Hx & ->).
  - unfold degree. rewrite Hnodes. unfold range, range2.
    rewrite seqZ_cons by lia. done.
  - apply uniform_below; [apply sum_values_nonneg|apply Hv].
  - intros x. unfold degree. rewrite <- list_fmap_compose, list_fmap_id.
    rewrite Hnodes, elem_of_range. lia.
  - eexists _, _. apply choose_targets_done.
    rewrite (right_id_L ∅ (∪)), size_singleton. lia.
Qed.

Lemma preferential_dynamic_total fuel n ts m ew w :
  valid_stream rs → m ≤ 1 →
  ∃ G w',
    generate_preferential_attachment_graph rs barabasi_albert_graph
      (S fuel) n true ts m ew w = Ok G w'.
Proof.
  intros Hv Hm. unfold generate_preferential_attachment_graph.
  destruct (decide (m ≤ 0)) as [Hm0|Hm1].
  - destruct (forM_total (λ _ _, True) (range2 (m + 1) n)
                (preferential_arrival rs (S fuel) m ew (m + 1)))
      with (s := seed_clique ew (m + 1)
                   (add_nodes_from (range (m + 1)) empty_graph)) (w := w)
      as (G & w' & Hrun & _); [|done|by exists G, w'].
    intros t G w1 _ _. unfold preferential_arrival.
    eexists _, _. split; [|done]. unfold bind at 1.
    rewrite choose_targets_done by (rewrite size_empty; lia). reflexivity.
  - assert (m = 1) as -> by lia. unfold range2.
    apply (forM_seqZ_total
             (λ t G _, 2 ≤ t ∧ nodes G = range t ∧ within t G)).
    + intros t G w1 Ht (Hle & Hnodes & HG).
      destruct (preferential_arrival_total fuel 1 ew (1 + 1) t G w1)
        as (G' & w' & Hrun); [done|lia|lia|done|done|].
      exists G', w'. split; [done|]. split; [lia|]. split.
      * eapply preferential_arrival_nodes; [|done|done]. lia.
      * eapply preferential_arrival_within; [|done|done|done]. lia.
    + split; [lia|]. split.
      * apply seed_clique_nodes, nodes_range.
      * apply seed_clique_within, edges_sat_empty.
        by rewrite adj_add_nodes_from.
Qed.

End Termination.

Lemma zero_stream_valid : valid_stream zero_stream.
Proof. intros c. simpl. split; [apply Qle_refl|reflexivity]. Qed.

Lemma star_graph_contract : ba_contract star_graph.
Proof.
  intros n m w B w'. unfold star_graph.
  destruct (decide _) as [Hm|]; [|done]. intros [= <- _]. simpl.
  split; [done|]. intros u v [k [[= -> ->] Hk]]%list_elem_of_fmap.
  apply elem_of_range2 in Hk. rewrite !elem_of_range. lia.
Qed.

(** ** The claims *)

(** C1. No graph returned by any of the three generators, in static or
    dynamic mode, has a self-loop: the pair (i, i) is never an edge.  For
    the static preferential-attachment path this rests on the library's
    base graph having none. *)
Theorem no_self_loops rs ba fuel n dyn ts p m g p_in p_out ew w G w' :
  ba_contract ba →
  generate_random_graph rs n dyn ts p ew w = Ok G w'
  ∨ generate_preferential_attachment_graph rs ba fuel n dyn ts m ew w
    = Ok G w'
  ∨ generate_homophily_graph rs n dyn ts g p_in p_out ew w = Ok G w' →
  ∀ i, adj G !! (i, i) = None.
Proof.
  intros Hba Hrun i.
  enough (edges_sat (λ e _, e.1 ≠ e.2) G) as HG.
  { destruct (adj G !! (i, i)) as [d|] eqn:E; [|done].
    by destruct (HG _ _ E). }
  assert (incr_closed (λ (e : Z * Z) (_ : edge_data), e.1 ≠ e.2)) as Hc
    by (by split).
  assert (admits rs (λ e _, e.1 ≠ e.2) dyn ew) as HP by (by intros ????).
  destruct Hrun as [H|[H|H]].
  - by eapply random_graph_sat.
  - by eapply preferential_graph_sat.
  - by eapply homophily_graph_sat.
Qed.

Lemma no_self_loops_witness :
  ∃ G w',
    generate_preferential_attachment_graph zero_stream star_graph
      1 4 true 1 1 true blank = Ok G w' ∧
    number_of_edges G = 4 ∧ ∀ i, adj G !! (i, i) = None.
Proof.
  eexists _, _. split; [vm_compute; reflexivity|].
  split; [vm_compute; reflexivity|].
  eapply (no_self_loops zero_stream star_graph 1 4 true 1 0 1 0 0 0 true
            blank _ _ star_graph_contract).
  right. left. vm_compute. reflexivity.
Defined.

Lemma weight_shape_incr_closed ew :
  incr_closed (λ (_ : Z * Z) d, weight_shape true ew d).
Proof.
  unfold weight_shape. destruct ew; split.
  - intros _ k (k' & [= <-] & Hk). exists (k + 1). split; [done|lia].
  - by intros _ q (k' & [=] & _).
  - by intros _ k [|].
  - by intros _ q [|].
Qed.

Lemma weight_shape_admits rs dyn ew :
  valid_stream rs → admits rs (λ _ d, weight_shape dyn ew d) dyn ew.
Proof.
  intros Hv i j d _. unfold fresh_data, weight_shape.
  destruct ew; [|done]. destruct dyn.
  - intros ->. exists 1. split; [done|lia].
  - intros [c ->]. eexists. split; [done|apply Hv].
Qed.

(** C2, as the code has it.  With weights enabled every edge of a static
    graph carries one draw of [random.random()], a float of [0, 1) that
    can be exactly 0, and every edge of a dynamic graph carries an integer
    that starts at 1 and never drops below it.  With weights disabled an
    edge has no weight entry or the entry [None]. *)
Theorem edge_weight_shape rs ba fuel n dyn ts p m g p_in p_out ew w G w' :
  valid_stream rs → ba_contract ba →
  generate_random_graph rs n dyn ts p ew w = Ok G w'
  ∨ generate_preferential_attachment_graph rs ba fuel n dyn ts m ew w
    = Ok G w'
  ∨ generate_homophily_graph rs n dyn ts g p_in p_out ew w = Ok G w' →
  ∀ e d, adj G !! e = Some d → weight_shape dyn ew d.
Proof.
  intros Hv Hba Hrun.
  change (edges_sat (λ _ d, weight_shape dyn ew d) G).
  pose proof (weight_shape_admits rs dyn ew Hv) as HP.
  destruct Hrun as [H|[H|H]].
  - eapply random_graph_sat; [|done|done].
    intros ->. apply weight_shape_incr_closed.
  - by eapply preferential_graph_sat.
  - eapply homophily_graph_sat; [|done|done].
    intros ->. apply weight_shape_incr_closed.
Qed.

Lemma edge_weight_shape_witness :
  ∃ G w',
    generate_homophily_graph zero_stream 4 false 1 2 (1 # 2) (1 # 4) true
      blank = Ok G w' ∧
    number_of_edges G = 12 ∧
    ∀ e d, adj G !! e = Some d → weight_shape false true d.
Proof.
  eexists _, _. split; [vm_compute; reflexivity|].
  split; [vm_compute; reflexivity|].
  eapply (edge_weight_shape zero_stream star_graph 0 4 false 1 0 0 2
            (1 # 2) (1 # 4) true blank _ _ zero_stream_valid
            star_graph_contract).
  right. right. vm_compute. reflexivity.
Defined.

(** C2 as stated fails: a static weighted run in which the weight draw is
    the float 0.0 yields an edge of weight 0, which is not positive; and
    an unweighted homophily run yields edges whose weight entry is present
    and holds [None]. *)
Lemma zero_weight_edge :
  ¬ (∀ rs n dyn ts p ew w G w' e q,
       valid_stream rs →
       generate_random_graph rs n dyn ts p ew w = Ok G w' →
       adj G !! e = Some (Some (VFloat q)) → (0 < q)%Q)
  ∧ ∃ G w',
      generate_homophily_graph zero_stream 2 false 1 2 (1 # 2) (1 # 2) false
        blank = Ok G w' ∧
      adj G !! (0, 1) = Some (Some VNone).
Proof.
  split.
  - intros H. apply (Qlt_irrefl 0).
    eapply (H zero_stream 2 false 1 (1 # 2) true blank _ _ (0, 1) 0%Q
              zero_stream_valid); vm_compute; reflexivity.
  - eexists _, _. split; vm_compute; reflexivity.
Qed.

(** C3, as the code has it.  A dynamic run of zero time steps of the
    random or the homophily generator, and a static run with link
    probability 0 (random) or with both probabilities 0 (homophily),
    return a graph without edges and raise nothing; for homophily the
    number of groups must not be 0 unless there is no node.  Preferential
    attachment takes no part: it never reads [time_steps]. *)
Theorem zero_edges rs :
  (∀ n p ew w,
     ∃ G w', generate_random_graph rs n true 0 p ew w = Ok G w' ∧
             number_of_edges G = 0) ∧
  (∀ n g p_in p_out ew w, g ≠ 0 ∨ n ≤ 0 →
     ∃ G w', generate_homophily_graph rs n true 0 g p_in p_out ew w
             = Ok G w' ∧ number_of_edges G = 0) ∧
  (valid_stream rs →
   (∀ n ts p ew w, (p == 0)%Q →
      ∃ G w', generate_random_graph rs n false ts p ew w = Ok G w' ∧
              number_of_edges G = 0) ∧
   (∀ n ts g p_in p_out ew w, g ≠ 0 ∨ n ≤ 0 →
      (p_in == 0)%Q → (p_out == 0)%Q →
      ∃ G w', generate_homophily_graph rs n false ts g p_in p_out ew w
              = Ok G w' ∧ number_of_edges G = 0)).
Proof.
  assert (∀ n, number_of_edges (add_nodes_from (range n) empty_graph) = 0)
    as H0 by (intros; unfold number_of_edges; by rewrite adj_add_nodes_from).
  assert (∀ n groups,
            number_of_edges (set_node_attributes groups
              (add_nodes_from (range n) empty_graph)) = 0) as H1
    by (intros; unfold number_of_edges; simpl; by rewrite adj_add_nodes_from).
  split; [|split; [|intros Hv; split]].
  - intros n p ew w. eexists _, _. split; [reflexivity|apply H0].
  - intros n g p_in p_out ew w Hg. unfold generate_homophily_graph.
    destruct (assign_groups_total n g w Hg) as (groups & Hgr & _).
    eexists _, _. unfold bind. rewrite Hgr. split; [reflexivity|apply H1].
  - intros n ts p ew w Hp.
    destruct (random_static_zero rs n ts p ew w Hv Hp) as [w' Hrun].
    eexists _, _. split; [exact Hrun|apply H0].
  - intros n ts g p_in p_out ew w Hg Hin Hout.
    destruct (homophily_static_zero rs n ts g p_in p_out ew w Hv Hg Hin Hout)
      as (groups & w' & Hrun).
    eexists _, _. split; [exact Hrun|apply H1].
Qed.

Lemma zero_edges_witness :
  ∃ G w',
    generate_homophily_graph zero_stream 3 false 1 2 0%Q 0%Q true blank
    = Ok G w' ∧ number_of_edges G = 0.
Proof.
  apply (proj2 (proj2 (proj2 (zero_edges zero_stream)) zero_stream_valid)
           3 1 2 0%Q 0%Q true blank);
    [left; lia|reflexivity|reflexivity].
Defined.

(** C3 as stated fails for preferential attachment: with [time_steps = 0]
    the dynamic generator still builds its seed clique and attaches every
    later node.  It also fails for homophily when [homophily_groups] is 0:
    the group assignment divides by zero before any edge is tried. *)
Lemma zero_steps_preferential_edges :
  ¬ (∀ rs ba fuel n m ew w G w',
       generate_preferential_attachment_graph rs ba fuel n true 0 m ew w
       = Ok G w' → number_of_edges G = 0)
  ∧ generate_homophily_graph zero_stream 3 true 0 0 (1 # 2) (1 # 2) false
      blank = Raise ZeroDivisionError blank.
Proof.
  split; [|vm_compute; reflexivity].
  intros H.
  enough (3 = 0) by done.
  rewrite <- (H zero_stream star_graph 1%nat 3 1 false blank _ _ eq_refl).
  vm_compute. reflexivity.
Qed.

Lemma number_of_nodes_range G n :
  0 ≤ n → nodes G = range n → number_of_nodes G = n.
Proof.
  intros Hn HG. unfold number_of_nodes, range, range2.
  rewrite HG. unfold range, range2. rewrite length_seqZ. lia.
Qed.

(** C4, as the code has it.  For a node count [n >= 0]: the static random
    and homophily generators (with at least one group) return a graph of
    exactly [n] nodes; so does the static preferential-attachment
    generator whenever the library's base generator returns; and when [n]
    is at least the size [m + 1] of the seed clique, with [m >= 0], every
    dynamic preferential-attachment run that returns has exactly [n]
    nodes.  With [m <= 1] (the default is 1) the dynamic run always
    returns; with more edges per arrival its redraw loop ends only if the
    stream eventually yields enough distinct targets. *)
Theorem node_count rs ba fuel n ts p m g p_in p_out ew w :
  0 ≤ n →
  (∃ G w', generate_random_graph rs n false ts p ew w = Ok G w' ∧
           number_of_nodes G = n) ∧
  (g ≠ 0 →
   ∃ G w', generate_homophily_graph rs n false ts g p_in p_out ew w
           = Ok G w' ∧ number_of_nodes G = n) ∧
  (ba_contract ba → ∀ G w',
     generate_preferential_attachment_graph rs ba fuel n false ts m ew w
     = Ok G w' → number_of_nodes G = n) ∧
  (0 ≤ m → m + 1 ≤ n →
   (∀ G w',
      generate_preferential_attachment_graph rs ba fuel n true ts m ew w
      = Ok G w' → number_of_nodes G = n) ∧
   (valid_stream rs → m ≤ 1 →
    ∃ G w',
      generate_preferential_attachment_graph rs ba (S fuel) n true ts m ew w
      = Ok G w' ∧ number_of_nodes G = n)).
Proof.
  intros Hn.
  assert (∀ fuel G w',
            0 ≤ m → m + 1 ≤ n →
            generate_preferential_attachment_graph rs ba fuel n true ts m
              ew w = Ok G w' → number_of_nodes G = n) as Hdyn.
  { intros fuel' G w' Hm Hmn Hrun. apply number_of_nodes_range; [done|].
    apply preferential_dynamic_nodes in Hrun; [|done].
    by replace (Z.max n (m + 1)) with n in Hrun by lia. }
  split; [|split; [|split]].
  - destruct (random_static_total rs n ts p ew w) as (G & w' & Hrun).
    exists G, w'. split; [done|]. apply number_of_nodes_range; [done|].
    by eapply random_graph_nodes.
  - intros Hg.
    destruct (homophily_static_total rs n ts g p_in p_out ew w (or_introl Hg))
      as (G & w' & Hrun).
    exists G, w'. split; [done|]. apply number_of_nodes_range; [done|].
    by eapply homophily_graph_nodes.
  - intros Hba G w' Hrun. apply number_of_nodes_range; [done|].
    by eapply preferential_static_nodes.
  - intros Hm Hmn. split; [intros G w'; by apply Hdyn|].
    intros Hv Hm1.
    destruct (preferential_dynamic_total rs ba fuel n ts m ew w Hv Hm1)
      as (G & w' & Hrun).
    exists G, w'. split; [done|]. by eapply Hdyn.
Qed.

Lemma node_count_witness :
  ∃ G w',
    generate_preferential_attachment_graph zero_stream star_graph
      1 5 true 1 1 true blank = Ok G w' ∧ number_of_nodes G = 5.
Proof.
  assert (0 ≤ 5) as Hn by lia.
  assert (0 ≤ 1) as Hm by lia.
  assert (1 + 1 ≤ 5) as Hmn by lia.
  assert (1 ≤ 1) as Hm1 by lia.
  exact (proj2 (proj2 (proj2 (proj2
           (node_count zero_stream star_graph 0 5 1 0%Q 1 1 0%Q 0%Q true
              blank Hn))) Hm Hmn) zero_stream_valid Hm1).
Defined.

(** With two edges per arrival and a stream that always draws 0.0, the
    redraw loop keeps selecting node 0 and never gathers two targets. *)
Example preferential_redraw_exhausts_fuel :
  generate_preferential_attachment_graph zero_stream star_graph
    200 4 true 1 2 false blank = Timeout.
Proof. vm_compute. reflexivity. Qed.

(** C4 as stated fails: asked for one node with [edges_per_step = 1], the
    dynamic preferential-attachment generator returns its two-node seed
    clique; and asked for -1 nodes, the static random generator returns
    the graph without nodes. *)
Lemma seed_clique_exceeds_population :
  ¬ (∀ rs ba fuel n ts m ew w G w',
       generate_preferential_attachment_graph rs ba fuel n true ts m ew w
       = Ok G w' → number_of_nodes G = n)
  ∧ ∃ G w',
      generate_random_graph zero_stream (-1) false 1 (1 # 2) false blank
      = Ok G w' ∧ number_of_nodes G = 0.
Proof.
  split; [|eexists _, _; split; vm_compute; reflexivity].
  intros H.
  enough (2 = 1) by done.
  rewrite <- (H zero_stream star_graph 0%nat 1 1 1 false blank _ _ eq_refl).
  vm_compute. reflexivity.
Qed.

(** C5, as the code has it.  [main] validates nothing but the strategy
    name: handed a negative [num_agents] with the random or the homophily
    strategy it raises no error, generates a graph with no node and no
    edge, and writes it to the output file. *)
Theorem negative_population_accepted rs ba fuel cfg w :
  get (cfg_num_agents cfg) 100 < 0 →
  strategy_of cfg = "random" ∨ strategy_of cfg = "homophily" →
  ∃ name G w',
    main rs ba fuel cfg w = Ok () w' ∧
    written name ∧ files w' = files w ++ [(name, G)] ∧
    number_of_nodes G = 0 ∧ number_of_edges G = 0.
Proof.
  intros Hn Hs.
  assert (∃ G w1,
            ((strategy_of cfg = "random" ∧
              generate_random_graph rs (get (cfg_num_agents cfg) 100)
                (get (cfg_dynamic cfg) false) (get (cfg_time_steps cfg) 1)
                (get (cfg_p cfg) float_0_1)
                (get (cfg_edge_weights cfg) false) w = Ok G w1)
             ∨ (strategy_of cfg = "homophily" ∧
                generate_homophily_graph rs (get (cfg_num_agents cfg) 100)
                  (get (cfg_dynamic cfg) false) (get (cfg_time_steps cfg) 1)
                  (get (cfg_homophily_groups cfg) 2)
                  (get (cfg_p_in cfg) float_0_1)
                  (get (cfg_p_out cfg) float_0_01)
                  (get (cfg_edge_weights cfg) false) w = Ok G w1))
            ∧ files w1 = files w ∧ nodes G = [] ∧ adj G = ∅)
    as (G & w1 & Hgen & Hf & Hnodes & Hadj).
  { destruct Hs as [Hs|Hs].
    - edestruct (random_graph_empty rs) as (G & w1 & Hrun & ?);
        [|exists G, w1; split; [left; split; [done|exact Hrun]|done]]. lia.
    - edestruct (homophily_graph_empty rs) as (G & w1 & Hrun & ?);
        [|exists G, w1; split; [right; split; [done|exact Hrun]|done]]. lia. }
  destruct (main_finish rs ba fuel cfg w G w1 Hgen) as (name & w2 & Hmain & Hname & Hw2).
  exists name, G, w2. split; [done|]. split; [done|].
  split; [by rewrite Hw2, Hf|].
  unfold number_of_nodes, number_of_edges. by rewrite Hnodes, Hadj.
Qed.

Lemma negative_population_accepted_witness :
  ∃ name G w',
    main zero_stream star_graph 0 negative_population blank = Ok () w' ∧
    written name ∧ files w' = files blank ++ [(name, G)] ∧
    number_of_nodes G = 0 ∧ number_of_edges G = 0.
Proof.
  apply (negative_population_accepted zero_stream star_graph 0
           negative_population blank); [vm_compute; reflexivity|].
  left. reflexivity.
Defined.

(** C5 as stated fails: a configuration whose [num_agents] is -5 raises
    nothing. *)
Lemma negative_population_not_rejected :
  ¬ (∀ rs ba fuel cfg w,
       get (cfg_num_agents cfg) 100 < 0 →
       ∃ e w', main rs ba fuel cfg w = Raise e w').
Proof.
  intros H.
  destruct (H zero_stream star_graph 0%nat negative_population blank)
    as (e & w' & Hraise); [vm_compute; reflexivity|].
  vm_compute in Hraise. discriminate Hraise.
Qed.

Lemma run_report (mk : Z → Z → line) (step : Z → DiGraph → M DiGraph) :
  (∀ t G w G' w', step t G w = Ok G' w' →
     stdout w' = stdout w
                 ++ [mk t (number_of_edges G' - number_of_edges G)]) →
  ∀ steps G w G' w', forM steps step G w = Ok G' w' →
    ∃ counts,
      length counts = length steps ∧
      stdout w' = stdout w ++ zip_with mk steps counts ∧
      foldr Z.add 0 counts = number_of_edges G' - number_of_edges G.
Proof.
  intros Hstep steps. induction steps as [|t steps IH];
    intros G w G' w' Hrun; simpl in Hrun.
  - inv_run Hrun. exists []. simpl. rewrite app_nil_r.
    repeat split. lia.
  - apply bind_Ok in Hrun as (G1 & w1 & H1 & H2).
    apply Hstep in H1. destruct (IH _ _ _ _ H2) as (counts & Hlen & Hout & Hsum).
    exists ((number_of_edges G1 - number_of_edges G) :: counts). simpl.
    split; [by rewrite Hlen|]. split; [|lia].
    by rewrite Hout, H1, <- app_assoc.
Qed.

(** C6. In a dynamic time step of the random and of the homophily
    generator, started from any graph, the one line printed reports as
    [edges_added] the number of edges the step created: the edge count
    after the step minus the edge count before it.  Selections of an
    existing edge, weighted or not, leave the edge count and the report
    alone.  A whole dynamic run prints one such line per time step, and
    the reported counts add up to the edge count of the returned graph. *)
Theorem step_reports_new_edges rs n g p p_in p_out ew :
  (∀ t G w G' w',
     random_step rs n p ew t G w = Ok G' w' →
     stdout w' = stdout w
                 ++ [StepRandom t (number_of_edges G' - number_of_edges G)]) ∧
  (∀ groups t G w G' w',
     homophily_step rs n groups p_in p_out ew t G w = Ok G' w' →
     stdout w' = stdout w
                 ++ [StepHomophily t
                       (number_of_edges G' - number_of_edges G)]) ∧
  (∀ ts w G w',
     generate_random_graph rs n true ts p ew w = Ok G w' →
     ∃ counts,
       length counts = length (range2 1 (ts + 1)) ∧
       stdout w' = stdout w
                   ++ zip_with StepRandom (range2 1 (ts + 1)) counts ∧
       foldr Z.add 0 counts = number_of_edges G) ∧
  (∀ ts w G w',
     generate_homophily_graph rs n true ts g p_in p_out ew w = Ok G w' →
     ∃ counts,
       length counts = length (range2 1 (ts + 1)) ∧
       stdout w' = stdout w
                   ++ zip_with StepHomophily (range2 1 (ts + 1)) counts ∧
       foldr Z.add 0 counts = number_of_edges G).
Proof.
  split; [|split; [|split]].
  - intros t G w G' w'. apply random_step_report.
  - intros groups t G w G' w'. apply homophily_step_report.
  - intros ts w G w' Hrun. unfold generate_random_graph in Hrun.
    destruct (run_report StepRandom (random_step rs n p ew)
                (random_step_report rs n p ew) _ _ _ _ _ Hrun)
      as (counts & Hlen & Hout & Hsum).
    exists counts. split; [done|]. split; [done|].
    rewrite Hsum. unfold number_of_edges at 2.
    rewrite adj_add_nodes_from. simpl. rewrite map_size_empty. lia.
  - intros ts w G w' Hrun. unfold generate_homophily_graph in Hrun.
    apply bind_Ok in Hrun as (groups & w0 & [-> _]%assign_groups_Ok & Hrun).
    destruct (run_report StepHomophily
                (homophily_step rs n groups p_in p_out ew)
                (homophily_step_report rs n groups p_in p_out ew)
                _ _ _ _ _ Hrun)
      as (counts & Hlen & Hout & Hsum).
    exists counts. split; [done|]. split; [done|].
    rewrite Hsum. unfold number_of_edges at 2. simpl.
    rewrite adj_add_nodes_from. simpl. rewrite map_size_empty. lia.
Qed.

Lemma step_reports_new_edges_witness :
  ∃ G' w',
    random_step zero_stream 3 (1 # 2) true 1 tied blank = Ok G' w' ∧
    weight_of tied (0, 1) = 1 ∧ weight_of G' (0, 1) = 2 ∧
    number_of_edges G' - number_of_edges tied = 1 ∧
    stdout w' = stdout blank
                ++ [StepRandom 1 (number_of_edges G' - number_of_edges tied)].
Proof.
  eexists _, _. split; [vm_compute; reflexivity|].
  split; [vm_compute; reflexivity|]. split; [vm_compute; reflexivity|].
  split; [vm_compute; reflexivity|].
  apply (proj1 (step_reports_new_edges zero_stream 3 2 (1 # 2) 0%Q 0%Q true)).
  vm_compute. reflexivity.
Defined.

Lemma weight_from_count G e k :
  counted G → weight_of G e = 0 + k →
  adj G !! e = if decide (k = 0) then None
               else Some (Some (VInt (1 + (k - 1)))).
Proof.
  intros HG Hk. destruct (decide (k = 0)) as [->|Hne].
  - by apply weight_of_absent.
  - rewrite (weight_of_present G e HG) by lia. do 3 f_equal. lia.
Qed.

(** C7. In dynamic weighted mode, for the random and the homophily
    generator alike: over any stretch of iterations started from a graph
    whose edges carry integer weights, the weight of every pair grows by
    exactly the number of times the stretch selects it, so it never
    decreases and each re-selection adds exactly 1; and in the graph a
    whole run returns, a pair is an edge exactly when it was selected, its
    weight being 1 plus the number of its re-selections.  The selections
    are those read off the random stream by [random_pick] and
    [homophily_pick]. *)
Theorem weight_counts_selections rs n g p p_in p_out :
  (∀ l G edges_added w, (∀ i, i ∈ l → i ∈ range n) → counted G →
     ∃ tr st' w',
       forM l (random_visit rs n p true) (G, edges_added) w = Ok st' w' ∧
       picks (random_pick rs n p) l (cursor w) = inr (tr, cursor w') ∧
       ∀ e, weight_of st'.1 e = weight_of G e + occurrences e tr) ∧
  (∀ ts w,
     ∃ tr G w',
       generate_random_graph rs n true ts p true w = Ok G w' ∧
       picks (random_pick rs n p) (visits n (range2 1 (ts + 1))) (cursor w)
       = inr (tr, cursor w') ∧
       ∀ e, adj G !! e =
            if decide (occurrences e tr = 0) then None
            else Some (Some (VInt (1 + (occurrences e tr - 1))))) ∧
  (g ≠ 0 ∨ n ≤ 0 →
   (∀ groups l G edges_added w,
      groups_spec n g groups → (∀ i, i ∈ l → i ∈ range n) → counted G →
      ∃ tr st' w',
        forM l (homophily_visit rs n groups p_in p_out true)
          (G, edges_added) w = Ok st' w' ∧
        picks (homophily_pick rs n g p_in p_out) l (cursor w)
        = inr (tr, cursor w') ∧
        ∀ e, weight_of st'.1 e = weight_of G e + occurrences e tr) ∧
   (∀ ts w,
      ∃ tr G w',
        generate_homophily_graph rs n true ts g p_in p_out true w
        = Ok G w' ∧
        picks (homophily_pick rs n g p_in p_out)
          (visits n (range2 1 (ts + 1))) (cursor w)
        = inr (tr, cursor w') ∧
        ∀ e, adj G !! e =
             if decide (occurrences e tr = 0) then None
             else Some (Some (VInt (1 + (occurrences e tr - 1)))))).
Proof.
  assert (∀ i, i ∈ range n →
               follows (random_visit rs n p true i) (random_pick rs n p i))
    as Hrandom.
  { intros i Hi. apply random_visit_follows. apply elem_of_range in Hi. lia. }
  split; [|split; [|intros Hg; split]].
  - intros l G ea w Hl HG.
    destruct (sweep_follows _ _ n Hrandom l (G, ea) w Hl HG)
      as (tr & c' & st' & Hpicks & Hrun & _ & Hw).
    by exists tr, st', (set_cursor c' w).
  - intros ts w.
    destruct (run_follows _ _ StepRandom (random_step rs n p true) n Hrandom
                (λ _ _ _, eq_refl) (range2 1 (ts + 1))
                (add_nodes_from (range n) empty_graph) w
                (proj2 (counted_initial n ∅)))
      as (tr & G & w' & Hpicks & Hrun & _ & HG & Hw).
    exists tr, G, w'. split; [exact Hrun|]. split; [done|].
    intros e. apply weight_from_count; [done|].
    by rewrite Hw, (proj2 (weight_of_initial n ∅ e)).
  - intros groups l G ea w Hs Hl HG.
    destruct (sweep_follows _ _ n
                (λ i Hi, homophily_visit_follows rs n g groups p_in p_out i
                           Hs Hi) l (G, ea) w Hl HG)
      as (tr & c' & st' & Hpicks & Hrun & _ & Hw).
    by exists tr, st', (set_cursor c' w).
  - intros ts w. unfold generate_homophily_graph.
    destruct (assign_groups_total n g w Hg) as (groups & Hgr & Hs).
    destruct (run_follows _ _ StepHomophily
                (homophily_step rs n groups p_in p_out true) n
                (λ i Hi, homophily_visit_follows rs n g groups p_in p_out i
                           Hs Hi)
                (λ _ _ _, eq_refl) (range2 1 (ts + 1))
                (set_node_attributes groups
                   (add_nodes_from (range n) empty_graph)) w
                (proj1 (counted_initial n groups)))
      as (tr & G & w' & Hpicks & Hrun & _ & HG & Hw).
    exists tr, G, w'. unfold bind at 1. rewrite Hgr.
    split; [exact Hrun|]. split; [done|].
    intros e. apply weight_from_count; [done|].
    by rewrite Hw, (proj1 (weight_of_initial n groups e)).
Qed.

Lemma weight_counts_selections_witness :
  ∃ tr G w',
    generate_homophily_graph zero_stream 3 true 2 3 (1 # 2) (1 # 2) true blank
    = Ok G w' ∧
    occurrences (0, 1) tr = 2 ∧
    adj G !! (0, 1) = Some (Some (VInt 2)) ∧
    ∀ e, adj G !! e =
         if decide (occurrences e tr = 0) then None
         else Some (Some (VInt (1 + (occurrences e tr - 1)))).
Proof.
  assert (3 ≠ 0 ∨ 3 ≤ 0) as Hg by (left; lia).
  destruct (proj2 (proj2 (proj2
              (weight_counts_selections zero_stream 3 3 (1 # 2) (1 # 2)
                 (1 # 2))) Hg) 2 blank)
    as (tr & G & w' & Hrun & Hpicks & Hw).
  exists tr, G, w'. split; [exact Hrun|].
  vm_compute in Hpicks. injection Hpicks as <- _.
  vm_compute in Hrun. injection Hrun as <- _.
  split; [vm_compute; reflexivity|].
  split; [vm_compute; reflexivity|]. exact Hw.
Defined.

(** C8. In static homophily mode every node [i] of the returned graph is
    labelled with the group [i mod homophily_groups].  If [p_out = 0],
    every edge joins two nodes of the same group, whatever [p_in]; if
    [p_in = 0], every edge joins two nodes of different groups, whatever
    [p_out]. *)
Theorem homophily_calibration rs n ts g p_in p_out ew w G w' :
  valid_stream rs →
  generate_homophily_graph rs n false ts g p_in p_out ew w = Ok G w' →
  (∀ i, i ∈ nodes G → node_group G !! i = Some (i `mod` g)) ∧
  ((p_out == 0)%Q → ∀ i j, is_Some (adj G !! (i, j)) →
     i ∈ nodes G ∧ j ∈ nodes G ∧ node_group G !! i = node_group G !! j) ∧
  ((p_in == 0)%Q → ∀ i j, is_Some (adj G !! (i, j)) →
     i ∈ nodes G ∧ j ∈ nodes G ∧ node_group G !! i ≠ node_group G !! j).
Proof.
  intros Hv Hrun.
  pose proof (homophily_graph_nodes _ _ _ _ _ _ _ _ _ _ _ Hrun) as Hnodes.
  destruct (homophily_static_linked rs (λ _ _, True) n ts g p_in p_out ew
              w G w' (λ _ _ _ _ _ _ _ _, I) Hrun) as [Hs _].
  assert (∀ i, i ∈ range n → node_group G !! i = Some (i `mod` g)) as Hgroup
    by (intros i Hi; by rewrite Hs, decide_True).
  rewrite Hnodes. split; [done|]. split.
  - intros Hout i j Hedge.
    destruct (homophily_static_linked rs
                (λ i j, i ∈ range n ∧ j ∈ range n ∧ i `mod` g = j `mod` g)
                n ts g p_in p_out ew w G w') as [_ HP]; [|done|].
    + intros a b u Hne Ha Hb [c ->]. destruct (decide _); [done|].
      rewrite Qltb_zero; [done|done|apply Hv].
    + destruct (HP i j Hedge) as (Hi & Hj & Heq).
      rewrite !Hgroup by done. by rewrite Heq.
  - intros Hin i j Hedge.
    destruct (homophily_static_linked rs
                (λ i j, i ∈ range n ∧ j ∈ range n ∧ i `mod` g ≠ j `mod` g)
                n ts g p_in p_out ew w G w') as [_ HP]; [|done|].
    + intros a b u Hne Ha Hb [c ->]. destruct (decide _); [|done].
      rewrite Qltb_zero; [done|done|apply Hv].
    + destruct (HP i j Hedge) as (Hi & Hj & Heq).
      rewrite !Hgroup by done. split; [done|]. split; [done|]. congruence.
Qed.

Lemma homophily_calibration_witness :
  ∃ G w',
    generate_homophily_graph zero_stream 4 false 1 2 (1 # 2) 0%Q false blank
    = Ok G w' ∧
    number_of_edges G = 4 ∧
    ∀ i j, is_Some (adj G !! (i, j)) →
      i ∈ nodes G ∧ j ∈ nodes G ∧ node_group G !! i = node_group G !! j.
Proof.
  eexists _, _. split; [vm_compute; reflexivity|].
  split; [vm_compute; reflexivity|].
  refine (proj1 (proj2 (homophily_calibration zero_stream 4 1 2
                          (1 # 2) 0%Q false blank _ _ zero_stream_valid _))
            _).
  - vm_compute. reflexivity.
  - reflexivity.
Defined.

(** C9. [generate_preferential_attachment_graph] never reads
    [time_steps]: two calls that differ in it alone have the same outcome,
    graph and output included.  In dynamic mode a run that returns has
    printed one line per arrival, for the nodes [m + 1 .. n - 1], each
    with [max 0 m] targets: how many arrivals there are depends on
    [num_nodes] and [edges_per_step] only. *)
Theorem time_steps_ignored rs ba fuel n dyn ts1 ts2 m ew w :
  generate_preferential_attachment_graph rs ba fuel n dyn ts1 m ew w
  = generate_preferential_attachment_graph rs ba fuel n dyn ts2 m ew w
  ∧ match generate_preferential_attachment_graph rs ba fuel n true ts1 m ew w
    with
    | Ok G w' => stdout w' = stdout w ++ (arrival_line m <$> range2 (m + 1) n)
    | _ => True
    end.
Proof.
  split; [reflexivity|].
  destruct (generate_preferential_attachment_graph _ _ _ _ _ _ _ _ _)
    as [G w'| |] eqn:Hrun; [|done|done].
  by eapply preferential_dynamic_stdout.
Qed.

(** C10. [main] dispatches on the key [linking_strategy]; when that key
    is absent it behaves as if the key held the value of the key
    [strategy], or ["random"] when that one is absent too; when
    [linking_strategy] is present the key [strategy] is not looked at.  A
    name outside random, preferential_attachment, preferential and
    homophily raises [ValueError] in the world [main] was started in: no
    draw consumed, nothing printed, no file written. *)
Theorem strategy_dispatch rs ba fuel cfg w :
  (cfg_linking_strategy cfg = None →
   main rs ba fuel cfg w
   = main rs ba fuel
       (with_linking_strategy (Some (get (cfg_strategy cfg) "random")) cfg)
       w) ∧
  (∀ other, is_Some (cfg_linking_strategy cfg) →
   main rs ba fuel cfg w = main rs ba fuel (with_strategy other cfg) w) ∧
  (strategy_of cfg ∉ ["random"; "preferential_attachment"; "preferential";
                      "homophily"] →
   main rs ba fuel cfg w = Raise ValueError w).
Proof.
  split; [|split].
  - destruct cfg; simpl. by intros ->.
  - destruct cfg; simpl. by intros other [s ->].
  - intros Hs. apply main_unknown; intros Heq; apply Hs; rewrite Heq;
      repeat constructor.
Qed.

Lemma strategy_dispatch_witness :
  strategy_of misspelt = "homophilly" ∧
  main zero_stream star_graph 0 misspelt blank = Raise ValueError blank.
Proof.
  split; [reflexivity|].
  apply (proj2 (proj2 (strategy_dispatch zero_stream star_graph 0 misspelt
                         blank))).
  vm_compute. intros H. repeat (apply elem_of_cons in H as [H|H]; [discriminate H|]).
  by apply elem_of_nil in H.
Defined.

(** * Further properties of the generators *)

(** ** Which exceptions a generator can raise *)

Lemma forM_never_raises {A S} (l : list A) (body : A → S → M S) :
  (∀ a s w e w', body a s w ≠ Raise e w') →
  ∀ s w e w', forM l body s w ≠ Raise e w'.
Proof.
  intros Hbody. induction l as [|a l IH]; intros s w e w'; simpl; [done|].
  unfold bind. destruct (body a s w) as [s1 w1|e1 w1|] eqn:H1.
  - apply IH.
  - by destruct (Hbody a s w e1 w1).
  - done.
Qed.

Lemma random_visit_total rs n p ew i G edges_added w :
  0 < n → (ew = true → counted G) →
  ∃ st' w', random_visit rs n p ew i (G, edges_added) w = Ok st' w'.
Proof.
  intros Hn HG.
  unfold random_visit, bind, random, randrange, lift, rand_random,
    rand_randrange. simpl.
  destruct (Qltb _ p); [|by eexists _, _].
  rewrite decide_False by lia. simpl.
  destruct (decide (_ = i)); [by eexists _, _|].
  unfold has_edge. case_bool_decide as Hin; [|by eexists _, _].
  destruct ew; [|by eexists _, _].
  destruct Hin as [d Hd]. destruct (HG eq_refl _ _ Hd) as (k & -> & _).
  unfold incr_weight. rewrite Hd. by eexists _, _.
Qed.

Lemma linked_counted ew fresh i j st st' :
  fresh = Some (VInt 1) ∨ ew = false →
  linked ew fresh i j st st' →
  (ew = true → counted st.1) → ew = true → counted st'.1.
Proof.
  intros Hfresh Hl HG ->. destruct Hfresh as [->|?]; [|done].
  by apply (linked_weight i j st st' (HG eq_refl)).
Qed.

Lemma random_dynamic_total rs n ts p ew w :
  ∃ G w', generate_random_graph rs n true ts p ew w = Ok G w'.
Proof.
  unfold generate_random_graph.
  destruct (forM_total (λ G _, ew = true → counted G) (range2 1 (ts + 1))
              (random_step rs n p ew))
    with (s := add_nodes_from (range n) empty_graph) (w := w)
    as (G & w' & Hrun & _); [| |by exists G, w'].
  - intros t G w1 _ HG. unfold random_step.
    destruct (forM_total (λ st _, ew = true → counted st.1) (range n)
                (random_visit rs n p ew))
      with (s := (G, 0)) (w := w1) as ([G1 ea] & w2 & Hsweep & HG1);
      [|done|].
    + intros i [G2 ea2] w2 Hi HG2. apply elem_of_range in Hi.
      destruct (random_visit_total rs n p ew i G2 ea2 w2)
        as (st' & w3 & Hvisit); [lia|done|].
      exists st', w3. split; [done|].
      apply random_visit_cases in Hvisit as [_ [->|(j & _ & _ & Hl)]];
        [done|].
      eapply linked_counted; [|done|done].
      destruct ew; [by left|by right].
    + eexists _, _. unfold bind at 1. rewrite Hsweep. by split.
  - intros _. apply (proj2 (counted_initial n ∅)).
Qed.

(** X1. [generate_random_graph] always returns: for every stream and
    every argument it raises nothing.  In particular the weight increment
    of the dynamic loop never meets a missing or non-numeric weight, and
    [randrange] is never called on an empty range. *)
Theorem random_graph_returns rs n dyn ts p ew w :
  ∃ G w', generate_random_graph rs n dyn ts p ew w = Ok G w'.
Proof.
  destruct dyn; [apply random_dynamic_total|apply random_static_total].
Qed.

Lemma homophily_visit_total rs n g groups p_in p_out ew i G edges_added w :
  groups_spec n g groups → i ∈ range n → (ew = true → counted G) →
  ∃ st' w',
    homophily_visit rs n groups p_in p_out ew i (G, edges_added) w
    = Ok st' w'.
Proof.
  intros Hs Hi HG. apply elem_of_range in Hi as Hn.
  unfold homophily_visit. unfold bind at 1.
  unfold randrange, lift, rand_randrange. rewrite decide_False by lia.
  set (j := bits (rs (cursor w)) `mod` n).
  assert (j ∈ range n) as Hj
    by (apply elem_of_range, Z.mod_pos_bound; lia).
  destruct (decide (j = i)); [by eexists _, _|].
  unfold bind at 1. rewrite (getitem_spec n g) by done.
  unfold bind at 1. rewrite (getitem_spec n g) by done.
  assert (∀ w1, ∃ st' w',
            homophily_link ew i j (G, edges_added) w1 = Ok st' w') as Hlink.
  { intros w1. unfold homophily_link, has_edge.
    case_bool_decide as Hin; [|by eexists _, _].
    destruct ew; [|by eexists _, _].
    destruct Hin as [d Hd]. destruct (HG eq_refl _ _ Hd) as (k & -> & _).
    unfold bind, incr_weight. rewrite Hd. by eexists _, _. }
  destruct (decide _); unfold bind, random, lift, rand_random; simpl;
    (destruct (Qltb _ _); [apply Hlink|by eexists _, _]).
Qed.

Lemma homophily_dynamic_total rs n ts g p_in p_out ew w :
  g ≠ 0 ∨ n ≤ 0 →
  ∃ G w', generate_homophily_graph rs n true ts g p_in p_out ew w = Ok G w'.
Proof.
  intros Hg. unfold generate_homophily_graph.
  destruct (assign_groups_total n g w Hg) as (groups & Hgr & Hs).
  destruct (forM_total (λ G _, ew = true → counted G) (range2 1 (ts + 1))
              (homophily_step rs n groups p_in p_out ew))
    with (s := set_node_attributes groups
                 (add_nodes_from (range n) empty_graph)) (w := w)
    as (G & w' & Hrun & _).
  - intros t G w1 _ HG. unfold homophily_step.
    destruct (forM_total (λ st _, ew = true → counted st.1) (range n)
                (homophily_visit rs n groups p_in p_out ew))
      with (s := (G, 0)) (w := w1) as ([G1 ea] & w2 & Hsweep & HG1);
      [|done|].
    + intros i [G2 ea2] w2 Hi HG2.
      destruct (homophily_visit_total rs n g groups p_in p_out ew i G2 ea2
                  w2 Hs Hi HG2) as (st' & w3 & Hvisit).
      exists st', w3. split; [done|].
      apply homophily_visit_cases in Hvisit as [_ [->|(j & _ & _ & Hl)]];
        [done|].
      eapply linked_counted; [|done|done].
      destruct ew; [by left|by right].
    + eexists _, _. unfold bind at 1. rewrite Hsweep. by split.
  - intros _. apply (proj1 (counted_initial n groups)).
  - exists G, w'. unfold bind at 1. by rewrite Hgr.
Qed.

(** X2. [generate_homophily_graph] raises in exactly one situation: with
    [homophily_groups = 0] and at least one node the group assignment
    raises [ZeroDivisionError] before a draw is consumed or a line
    printed.  In every other case it returns; in particular [groups[j]]
    never misses a key. *)
Theorem homophily_graph_raises_only_zero_division rs n dyn ts g p_in p_out
    ew w :
  (g ≠ 0 ∨ n ≤ 0 →
   ∃ G w', generate_homophily_graph rs n dyn ts g p_in p_out ew w
           = Ok G w') ∧
  (g = 0 → 0 < n →
   generate_homophily_graph rs n dyn ts g p_in p_out ew w
   = Raise ZeroDivisionError w).
Proof.
  split.
  - intros Hg. destruct dyn;
      [by apply homophily_dynamic_total|by apply homophily_static_total].
  - intros -> Hn. unfold generate_homophily_graph, assign_groups, range,
      range2. rewrite seqZ_cons by lia. reflexivity.
Qed.

Lemma homophily_graph_raises_only_zero_division_witness :
  (∃ G w', generate_homophily_graph zero_stream 3 true 2 2 (1 # 2) (1 # 2)
             true blank = Ok G w') ∧
  generate_homophily_graph zero_stream 3 true 2 0 (1 # 2) (1 # 2) true blank
  = Raise ZeroDivisionError blank.
Proof.
  assert (2 ≠ 0 ∨ 3 ≤ 0) as Hg by (left; lia).
  assert (0 < 3) as Hn by lia.
  exact (conj
    (proj1 (homophily_graph_raises_only_zero_division zero_stream 3 true 2 2
              (1 # 2) (1 # 2) true blank) Hg)
    (proj2 (homophily_graph_raises_only_zero_division zero_stream 3 true 2 0
              (1 # 2) (1 # 2) true blank) eq_refl Hn)).
Defined.

Lemma choose_targets_never_raises rs fuel degrees total m t T w e w' :
  choose_targets rs fuel degrees total m t T w ≠ Raise e w'.
Proof.
  revert T w. induction fuel as [|fuel IH]; intros T w; simpl;
    destruct (decide _); try done.
  unfold bind, uniform, bind, random, lift, rand_random. simpl. apply IH.
Qed.

(** X3. Dynamic preferential attachment raises nothing: whatever the
    stream, the fuel and the arguments, a run either returns or is still
    redrawing when the fuel ends. *)
Theorem preferential_dynamic_never_raises rs ba fuel n ts m ew w e w' :
  generate_preferential_attachment_graph rs ba fuel n true ts m ew w
  ≠ Raise e w'.
Proof.
  unfold generate_preferential_attachment_graph.
  apply forM_never_raises. clear. intros t G w e w'.
  unfold preferential_arrival, bind.
  destruct (choose_targets _ _ _ _ _ _ _ _) as [T w1|e1 w1|] eqn:HT;
    [done| |done].
  by apply choose_targets_never_raises in HT.
Qed.

(** ** Nodes and edges stay inside the population *)

Lemma within_incr_closed n :
  incr_closed (λ (e : Z * Z) (_ : edge_data),
                 e.1 ∈ range n ∧ e.2 ∈ range n).
Proof. by split. Qed.

Lemma random_graph_within rs n dyn ts p ew w G w' :
  generate_random_graph rs n dyn ts p ew w = Ok G w' → within n G.
Proof.
  unfold generate_random_graph, within.
  assert (edges_sat (λ e _, e.1 ∈ range n ∧ e.2 ∈ range n)
            (add_nodes_from (range n) empty_graph)) as H0
    by (apply edges_sat_empty; by rewrite adj_add_nodes_from).
  destruct dyn.
  - apply (forM_inv (λ G _, edges_sat _ G)); [|done].
    intros t G1 w1 G2 w2 _ HG1 H. unfold random_step in H.
    apply bind_Ok in H as ([G3 ea] & w3 & Hsweep & H). inv_run H.
    revert Hsweep.
    apply (forM_inv (λ st _, edges_sat _ st.1)); [|done].
    intros i st w4 st' w5 Hi Hst
      [_ [->|(j & Hne & Hj & Hl)]]%random_visit_cases; [done|].
    eapply linked_sat; [apply within_incr_closed| |done|done].
    destruct ew; simpl; (split; [done|by apply elem_of_range]).
  - intros H. apply bind_Ok in H as (Gf & wf & Hloop & H). inv_run H.
    revert Hloop. apply (forM_inv (λ G _, edges_sat _ G)); [|done].
    intros i G1 w1 G2 w2 Hi HG1.
    apply (forM_inv (λ G _, edges_sat _ G)); [|done].
    intros j G3 w3 G4 w4 Hj HG3
      [->|(kw & Hne & Hkw & ->)]%random_pair_cases; [done|].
    destruct kw as [x|].
    + by apply edges_sat_add_edge_kw.
    + by apply edges_sat_add_edge_bare.
Qed.

Lemma homophily_graph_within rs n dyn ts g p_in p_out ew w G w' :
  generate_homophily_graph rs n dyn ts g p_in p_out ew w = Ok G w' →
  within n G.
Proof.
  unfold generate_homophily_graph, within. intros H.
  apply bind_Ok in H as (groups & w0 & _ & H).
  assert (edges_sat (λ e _, e.1 ∈ range n ∧ e.2 ∈ range n)
            (set_node_attributes groups
               (add_nodes_from (range n) empty_graph))) as H0
    by (apply edges_sat_empty; simpl; by rewrite adj_add_nodes_from).
  destruct dyn.
  - revert H. apply (forM_inv (λ G _, edges_sat _ G)); [|done].
    intros t G1 w1 G2 w2 _ HG1 H. unfold homophily_step in H.
    apply bind_Ok in H as ([G3 ea] & w3 & Hsweep & H). inv_run H.
    revert Hsweep.
    apply (forM_inv (λ st _, edges_sat _ st.1)); [|done].
    intros i st w4 st' w5 Hi Hst
      [_ [->|(j & Hne & Hj & Hl)]]%homophily_visit_cases; [done|].
    eapply linked_sat; [apply within_incr_closed| |done|done].
    simpl. split; [done|by apply elem_of_range].
  - apply bind_Ok in H as (Gf & wf & Hloop & H). inv_run H.
    revert Hloop. apply (forM_inv (λ G _, edges_sat _ G)); [|done].
    intros i G1 w1 G2 w2 Hi HG1.
    apply (forM_inv (λ G _, edges_sat _ G)); [|done].
    intros j G3 w3 G4 w4 Hj HG3 [->|Hadd]%homophily_pair_cases; [done|].
    destruct Hadd as (gi & gj & u & a & _ & _ & _ & _ & _ & _ & ->).
    by apply edges_sat_add_edge_kw.
Qed.

(** X4. Whatever the mode, a graph returned by the random or by the
    homophily generator has the node list [0, 1, ..., num_nodes - 1], in
    this order, and each of its edges joins two of these nodes: adding an
    edge never creates a node. *)
Theorem population_is_closed rs n dyn ts p g p_in p_out ew w G w' :
  generate_random_graph rs n dyn ts p ew w = Ok G w'
  ∨ generate_homophily_graph rs n dyn ts g p_in p_out ew w = Ok G w' →
  nodes G = range n ∧
  ∀ i j, is_Some (adj G !! (i, j)) → 0 ≤ i < n ∧ 0 ≤ j < n.
Proof.
  intros Hrun.
  enough (nodes G = range n ∧ within n G) as [Hnodes HG].
  { split; [done|]. intros i j [d Hd]. rewrite <- !elem_of_range.
    apply (HG _ _ Hd). }
  destruct Hrun as [H|H].
  - split; [by eapply random_graph_nodes|by eapply random_graph_within].
  - split; [by eapply homophily_graph_nodes|by eapply homophily_graph_within].
Qed.

Lemma population_is_closed_witness :
  ∃ G w',
    generate_random_graph zero_stream 3 true 2 (1 # 2) false blank
    = Ok G w' ∧
    number_of_edges G = 2 ∧
    nodes G = range 3 ∧
    ∀ i j, is_Some (adj G !! (i, j)) → 0 ≤ i < 3 ∧ 0 ≤ j < 3.
Proof.
  eexists _, _. split; [vm_compute; reflexivity|].
  split; [vm_compute; reflexivity|].
  eapply (population_is_closed zero_stream 3 true 2 (1 # 2) 0 0%Q 0%Q false
            blank).
  left. vm_compute. reflexivity.
Defined.

(** ** A dynamic step only adds *)

Lemma linked_keeps ew fresh i j st st' :
  linked ew fresh i j st st' →
  (∀ e, is_Some (adj st.1 !! e) → is_Some (adj st'.1 !! e)) ∧
  (ew = false → ∀ e d, adj st.1 !! e = Some d → adj st'.1 !! e = Some d) ∧
  number_of_edges st.1 ≤ number_of_edges st'.1.
Proof.
  intros [(Hin & _ & H) | (Hout & _ & ->)].
  - destruct ew.
    + destruct H as [w H].
      rewrite (size_incr_weight _ _ _ _ _ _ H). split; [|split; [done|lia]].
      intros e He. unfold incr_weight in H.
      destruct (adj st.1 !! (i, j)) as [[[|k|q]|]|]; try done;
        injection H as <-; simpl;
        (destruct (decide (e = (i, j))) as [->|Hne];
         [by rewrite lookup_insert_eq|by rewrite lookup_insert_ne]).
    + rewrite H. split; [done|]. split; [done|lia].
  - rewrite size_add_edge_new by done. split; [|split; [|lia]].
    + intros e He. simpl. destruct (decide (e = (i, j))) as [->|Hne];
        [by rewrite lookup_insert_eq|by rewrite lookup_insert_ne].
    + intros _ e d Hd. simpl. rewrite lookup_insert_ne; [done|].
      intros <-. congruence.
Qed.

(** X5. A dynamic time step of the random or of the homophily generator,
    started from any graph, removes nothing: every edge present before
    the step is present after it, and the edge count does not drop.  In
    unweighted mode it also leaves the data of every existing edge as it
    was: selecting an existing pair again is a no-op. *)
Theorem step_only_adds rs n groups p p_in p_out ew t G w G' w' :
  random_step rs n p ew t G w = Ok G' w'
  ∨ homophily_step rs n groups p_in p_out ew t G w = Ok G' w' →
  (∀ e, is_Some (adj G !! e) → is_Some (adj G' !! e)) ∧
  (ew = false → ∀ e d, adj G !! e = Some d → adj G' !! e = Some d) ∧
  number_of_edges G ≤ number_of_edges G'.
Proof.
  set (I := λ (st : DiGraph * Z) (_ : world),
         (∀ e, is_Some (adj G !! e) → is_Some (adj st.1 !! e)) ∧
         (ew = false → ∀ e d, adj G !! e = Some d → adj st.1 !! e = Some d) ∧
         number_of_edges G ≤ number_of_edges st.1).
  assert (∀ fresh i j st st' w1 w2,
            linked ew fresh i j st st' → I st w1 → I st' w2) as Hstep.
  { intros fresh i j st st' w1 w2 Hl (H1 & H2 & H3).
    destruct (linked_keeps _ _ _ _ _ _ Hl) as (K1 & K2 & K3).
    split; [|split]; [auto|auto|lia]. }
  assert (I (G, 0) w) as H0 by (split; [done|split; [done|simpl; lia]]).
  intros [H|H].
  - unfold random_step in H.
    apply bind_Ok in H as ([G1 ea] & w1 & Hsweep & H). inv_run H.
    apply (forM_inv I) in Hsweep; [done| |done].
    intros i st w2 st' w3 _ Hst
      [_ [->|(j & _ & _ & Hl)]]%random_visit_cases; [done|].
    by eapply Hstep.
  - unfold homophily_step in H.
    apply bind_Ok in H as ([G1 ea] & w1 & Hsweep & H). inv_run H.
    apply (forM_inv I) in Hsweep; [done| |done].
    intros i st w2 st' w3 _ Hst
      [_ [->|(j & _ & _ & Hl)]]%homophily_visit_cases; [done|].
    by eapply Hstep.
Qed.

Lemma step_only_adds_witness :
  ∃ G' w',
    random_step zero_stream 3 (1 # 2) false 1 tied blank = Ok G' w' ∧
    adj G' !! (0, 1) = Some (Some (VInt 1)) ∧
    number_of_edges tied ≤ number_of_edges G'.
Proof.
  eexists _, _. split; [vm_compute; reflexivity|].
  destruct (step_only_adds zero_stream 3 ∅ (1 # 2) 0%Q 0%Q false 1 tied
              blank _ _ (or_introl eq_refl)) as (_ & Hkeep & Hsize).
  split; [|exact Hsize]. apply (Hkeep eq_refl). vm_compute. reflexivity.
Defined.

(** ** Degree-weighted sampling *)

Lemma sum_values_nonneg_list (degrees : list (Z * Z)) :
  (∀ nd, nd ∈ degrees → 0 ≤ nd.2) → 0 ≤ sum_values degrees.
Proof.
  unfold sum_values. induction degrees as [|[x d] l IH]; intros H;
    [done|].
  rewrite fmap_cons. cbn [foldr snd].
  assert (0 ≤ d) by (apply (H (x, d)); by left).
  assert (0 ≤ foldr Z.add 0 (l.*2))
    by (apply IH; intros nd Hnd; apply H; by right).
  lia.
Qed.

(** X6. The scan of the degree dictionary selects by bucket: if the draw
    [r] lies above the cumulative degree of the nodes listed before [x]
    and at most [deg] higher, the scan stops at [x], whatever follows it;
    it adds [x] to the targets unless [x] is the arriving node, and adds
    nothing else.  The bucket of a node is as wide as its degree. *)
Theorem scan_selects_bucket before x deg after r t targets :
  (∀ nd, nd ∈ before → 0 ≤ nd.2) →
  (inject_Z (sum_values before) < r)%Q →
  (r <= inject_Z (sum_values before + deg))%Q →
  scan_degrees (before ++ (x, deg) :: after) 0 r t targets
  = if decide (x ≠ t) then {[x]} ∪ targets else targets.
Proof.
  enough (∀ cum,
            (∀ nd, nd ∈ before → 0 ≤ nd.2) →
            (inject_Z (cum + sum_values before) < r)%Q →
            (r <= inject_Z (cum + sum_values before + deg))%Q →
            scan_degrees (before ++ (x, deg) :: after) cum r t targets
            = if decide (x ≠ t) then {[x]} ∪ targets else targets) as H
    by (intros; by apply H).
  induction before as [|[y dy] l IH]; intros cum Hpos Hlo Hhi.
  - unfold sum_values in *. simpl in *. rewrite Z.add_0_r in Hhi.
    by rewrite (proj2 (Qle_bool_iff _ _) Hhi).
  - assert (0 ≤ sum_values l) as Hl.
    { apply sum_values_nonneg_list. intros nd Hnd. apply Hpos. by right. }
    assert (sum_values ((y, dy) :: l) = dy + sum_values l) as Hsum by done.
    rewrite Hsum in Hlo, Hhi. cbn [app scan_degrees].
    destruct (Qle_bool r (inject_Z (cum + dy))) eqn:Hle.
    + exfalso. apply Qle_bool_iff in Hle.
      apply (Qlt_irrefl r). eapply Qle_lt_trans; [exact Hle|].
      eapply Qle_lt_trans; [|exact Hlo]. rewrite <- Zle_Qle. lia.
    + apply IH.
      * intros nd Hnd. apply Hpos. by right.
      * by rewrite <- Z.add_assoc.
      * by rewrite <- (Z.add_assoc cum dy).
Qed.

Lemma scan_selects_bucket_witness :
  scan_degrees ([(0, 2); (1, 2)] ++ (2, 3) :: [(3, 0)]) 0 (9 # 2) 3 ∅
  = if decide (2 ≠ 3) then {[2]} ∪ ∅ else ∅.
Proof.
  apply (scan_selects_bucket [(0, 2); (1, 2)] 2 3 [(3, 0)] (9 # 2) 3 ∅).
  - intros nd Hnd. repeat (apply elem_of_cons in Hnd as [->|Hnd]; [simpl; lia|]).
    by apply elem_of_nil in Hnd.
  - reflexivity.
  - vm_compute. discriminate.
Defined.

(** X7. When the redraw loop of an arrival returns, starting from the
    empty set, the target set has exactly [max 0 edges_per_step] members;
    none of them is the arriving node and each is a node of the degree
    dictionary.  The loop draws but prints and writes nothing. *)
Theorem choose_targets_returns_distinct rs fuel degrees total m t w T w' :
  choose_targets rs fuel degrees total m t ∅ w = Ok T w' →
  Z.of_nat (size T) = Z.max 0 m ∧
  (∀ x, x ∈ T → x ≠ t ∧ x ∈ degrees.*1) ∧
  stdout w' = stdout w ∧ files w' = files w.
Proof.
  intros H. pose proof (choose_targets_Ok _ _ _ _ _ _ _ _ _ _ H)
    as (Hout & Hfiles & Hsize).
  split; [apply Hsize; rewrite size_empty; lia|]. split; [|done].
  intros x Hx.
  destruct (choose_targets_elem _ _ _ _ _ _ _ _ _ _ H x Hx) as [Hx0|Hx1];
    [by apply not_elem_of_empty in Hx0|done].
Qed.

Lemma choose_targets_returns_distinct_witness :
  ∃ T w',
    choose_targets zero_stream 1 [(0, 2); (1, 2); (2, 0)] 4 1 2 ∅ blank
    = Ok T w' ∧
    Z.of_nat (size T) = 1 ∧ (∀ x, x ∈ T → x ≠ 2 ∧ x ∈ [0; 1; 2]).
Proof.
  eexists _, _. split; [vm_compute; reflexivity|].
  destruct (choose_targets_returns_distinct zero_stream 1
              [(0, 2); (1, 2); (2, 0)] 4 1 2 blank _ _ eq_refl)
    as (Hsize & Hmem & _).
  split; [exact Hsize|exact Hmem].
Defined.

(** ** The shape of a dynamic preferential-attachment graph *)

Lemma fold_new_edges t kw (l : list Z) G :
  NoDup l → (∀ x, x ∈ l → adj G !! (t, x) = None) →
  number_of_edges (foldl (λ G x, add_edge t x kw G) G l)
  = number_of_edges G + Z.of_nat (length l).
Proof.
  intros Hl. revert G. induction Hl as [|x l Hx Hl IH]; intros G HG; simpl.
  - lia.
  - rewrite IH.
    + rewrite size_add_edge_new by (apply HG; by left). lia.
    + intros y Hy. simpl. rewrite lookup_insert_ne by (intros [= ->]; done).
      apply HG. by right.
Qed.

Lemma within_fresh_row t G x : within t G → adj G !! (t, x) = None.
Proof.
  intros HG. destruct (adj G !! (t, x)) as [d|] eqn:E; [|done].
  destruct (HG _ _ E) as [H _]. simpl in H. apply elem_of_range in H. lia.
Qed.

Lemma preferential_arrival_count rs fuel m ew k t G w G' w' :
  within t G →
  preferential_arrival rs fuel m ew k t G w = Ok G' w' →
  number_of_edges G' = number_of_edges G + Z.max 0 m.
Proof.
  intros HG H. unfold preferential_arrival in H.
  apply bind_Ok in H as (targets & w1 & Htargets & H). inv_run H.
  apply choose_targets_Ok in Htargets as (_ & _ & Hsize).
  rewrite fold_new_edges.
  - unfold number_of_edges at 1. rewrite adj_add_node.
    fold (number_of_edges G). rewrite <- Hsize by (rewrite size_empty; lia).
    done.
  - apply NoDup_elements.
  - intros x _. rewrite adj_add_node. by apply within_fresh_row.
Qed.

(** One row of the seed clique: node [u] is linked to every other node. *)
Lemma seed_row u x (lv : list Z) G :
  NoDup lv → (∀ v, v ∈ lv → adj G !! (u, v) = None) →
  let G' := foldl (λ G v, if decide (u ≠ v) then add_edge u v (Some x) G
                          else G) G lv in
  number_of_edges G'
  = number_of_edges G + Z.of_nat (length (filter (λ v, u ≠ v) lv)) ∧
  ∀ e, adj G' !! e =
       if decide (e.1 = u ∧ e.2 ∈ lv ∧ u ≠ e.2) then Some (Some x)
       else adj G !! e.
Proof.
  intros Hlv. revert G. induction Hlv as [|v lv Hv Hlv IH]; intros G HG.
  - simpl. split; [lia|]. intros e. rewrite decide_False; [done|].
    intros (_ & H & _). by apply elem_of_nil in H.
  - cbn [foldl]. rewrite filter_cons.
    destruct (decide (u ≠ v)) as [Hne|Heq].
    + destruct (IH (add_edge u v (Some x) G)) as [Hcount Hlook].
      { intros v' Hv'. simpl.
        rewrite lookup_insert_ne by (intros [= ->]; done).
        apply HG. by right. }
      split.
      * rewrite Hcount, size_add_edge_new by (apply HG; by left).
        simpl. lia.
      * intros [a b]. rewrite Hlook. simpl.
        destruct (decide (a = u ∧ b ∈ lv ∧ u ≠ b)) as [(-> & Hb & Hub)|Hn].
        { rewrite decide_True; [done|]. split; [done|]. split; [by right|done]. }
        destruct (decide ((a, b) = (u, v))) as [[= -> ->]|Hab].
        { rewrite lookup_insert_eq. rewrite decide_True; [done|].
          split; [done|]. split; [by left|done]. }
        rewrite lookup_insert_ne by done.
        rewrite decide_False; [done|]. intros (-> & Hb & Hub).
        apply elem_of_cons in Hb as [->|Hb]; [done|]. by apply Hn.
    + apply dec_stable in Heq as <-.
      destruct (IH G) as [Hcount Hlook].
      { intros v' Hv'. apply HG. by right. }
      split; [exact Hcount|].
      intros [a b]. rewrite Hlook. simpl.
      destruct (decide (a = u ∧ b ∈ lv ∧ u ≠ b)) as [(-> & Hb & Hub)|Hn].
      { rewrite decide_True; [done|]. split; [done|]. split; [by right|done]. }
      rewrite decide_False; [done|]. intros (-> & Hb & Hub).
      apply elem_of_cons in Hb as [->|Hb]; [done|]. by apply Hn.
Qed.

Lemma filter_other_length (u : Z) (l : list Z) :
  NoDup l → u ∈ l →
  Z.of_nat (length (filter (λ v, u ≠ v) l)) = Z.of_nat (length l) - 1.
Proof.
  intros Hl. induction Hl as [|v l Hv Hl IH]; intros Hu.
  - by apply elem_of_nil in Hu.
  - rewrite filter_cons. destruct (decide (u ≠ v)) as [Hne|Heq].
    + apply elem_of_cons in Hu as [->|Hu]; [done|].
      simpl. rewrite Nat2Z.inj_succ, IH by done. lia.
    + apply dec_stable in Heq as <-.
      assert (filter (λ v, u ≠ v) l = l) as ->; [|simpl; lia].
      clear IH Hl Hu. induction l as [|y l IH]; [done|].
      rewrite filter_cons. rewrite decide_True.
      * f_equal. apply IH. intros H. apply Hv. by right.
      * intros ->. apply Hv. by left.
Qed.

Lemma seed_rows x (lv lu : list Z) G :
  NoDup lv → NoDup lu → (∀ u, u ∈ lu → u ∈ lv) →
  (∀ u v, u ∈ lu → adj G !! (u, v) = None) →
  let G' := foldl (λ G u,
              foldl (λ G v, if decide (u ≠ v) then add_edge u v (Some x) G
                            else G) G lv) G lu in
  number_of_edges G'
  = number_of_edges G
    + Z.of_nat (length lu) * (Z.of_nat (length lv) - 1) ∧
  ∀ e, adj G' !! e =
       if decide (e.1 ∈ lu ∧ e.2 ∈ lv ∧ e.1 ≠ e.2) then Some (Some x)
       else adj G !! e.
Proof.
  intros Hlv Hlu. revert G. induction Hlu as [|u lu Hu Hlu IH];
    intros G Hsub HG.
  - cbn [foldl length]. split; [lia|]. intros e.
    destruct (decide _) as [(H & _)|]; [by apply elem_of_nil in H|done].
  - cbn [foldl].
    destruct (seed_row u x lv G Hlv) as [Hcount Hlook].
    { intros v _. apply HG. by left. }
    set (G1 := foldl _ G lv) in *.
    destruct (IH G1) as [Hcount' Hlook'].
    { intros u' Hu'. apply Hsub. by right. }
    { intros u' v Hu'. rewrite Hlook. simpl.
      rewrite decide_False by (intros (-> & _); done).
      apply HG. by right. }
    split.
    + rewrite Hcount', Hcount.
      rewrite filter_other_length by (done || (apply Hsub; by left)).
      simpl length. lia.
    + intros [a b]. rewrite Hlook', Hlook. simpl.
      destruct (decide (a ∈ lu ∧ b ∈ lv ∧ a ≠ b)) as [(Ha & Hb & Hab)|Hn].
      { rewrite decide_True; [done|]. split; [by right|done]. }
      destruct (decide (a = u ∧ b ∈ lv ∧ u ≠ b)) as [(-> & Hb & Hub)|Hn'].
      { rewrite decide_True; [done|]. split; [by left|done]. }
      rewrite decide_False; [done|]. intros (Ha & Hb & Hab).
      apply elem_of_cons in Ha as [->|Ha]; [by apply Hn'|by apply Hn].
Qed.

Lemma seed_clique_shape ew k :
  0 ≤ k →
  let G := seed_clique ew k (add_nodes_from (range k) empty_graph) in
  number_of_edges G = k * (k - 1) ∧
  ∀ u v, adj G !! (u, v) =
         if decide (u ∈ range k ∧ v ∈ range k ∧ u ≠ v)
         then Some (Some (if ew then VInt 1 else VNone)) else None.
Proof.
  intros Hk. unfold seed_clique.
  destruct (seed_rows (if ew then VInt 1 else VNone) (range k) (range k)
              (add_nodes_from (range k) empty_graph))
    as [Hcount Hlook];
    [apply NoDup_seqZ|apply NoDup_seqZ|done| |].
  { intros u v _. by rewrite adj_add_nodes_from. }
  split.
  - rewrite Hcount. unfold number_of_edges at 1.
    rewrite adj_add_nodes_from. simpl. rewrite map_size_empty.
    unfold range, range2. rewrite length_seqZ. lia.
  - intros u v. rewrite (Hlook (u, v)), adj_add_nodes_from. simpl.
    by rewrite lookup_empty.
Qed.

Lemma preferential_arrival_inv rs (P : Z * Z → edge_data → Prop)
    fuel m (ew : bool) k t G w G' w' :
  0 ≤ t → nodes G = range t →
  (∀ x, 0 ≤ x < t → P (t, x) (if ew then Some (VInt 1) else None)) →
  edges_sat P G →
  preferential_arrival rs fuel m ew k t G w = Ok G' w' →
  edges_sat P G' ∧ ∀ e, is_Some (adj G !! e) → is_Some (adj G' !! e).
Proof.
  intros Ht Hnodes HP HG H. unfold preferential_arrival in H.
  apply bind_Ok in H as (targets & w1 & Htargets & H). inv_run H.
  pose proof (add_node_range t G Ht Hnodes) as HG1.
  apply (foldl_inv (λ G', edges_sat P G' ∧
           ∀ e, is_Some (adj G !! e) → is_Some (adj G' !! e))).
  - intros target G2 Hin%elem_of_elements [HG2 Hkeep].
    destruct (choose_targets_elem _ _ _ _ _ _ _ _ _ _ Htargets _ Hin)
      as [Hx|[Hne Hx]]; [by apply not_elem_of_empty in Hx|].
    unfold degree in Hx. rewrite <- list_fmap_compose in Hx.
    rewrite list_fmap_id, HG1, elem_of_range in Hx.
    assert (0 ≤ target < t) as Hlt by lia.
    split.
    + specialize (HP target Hlt). destruct ew.
      * by apply edges_sat_add_edge_kw.
      * by apply edges_sat_add_edge_bare.
    + intros e He. simpl.
      destruct (decide (e = (t, target))) as [->|Hn];
        [by rewrite lookup_insert_eq|].
      rewrite lookup_insert_ne by done. by apply Hkeep.
  - split; [|by rewrite adj_add_node].
    intros e d. rewrite adj_add_node. apply HG.
Qed.

(** X8. A dynamic preferential-attachment run that returns, asked for
    [n >= m + 1] nodes with [m >= 0] edges per arrival, has exactly
    [m * n] edges.  The first [m + 1] nodes are linked in both directions
    to one another; every other edge leads from a node to one that
    arrived before it; and in weighted mode every weight is exactly 1,
    since no edge is ever selected twice. *)
Theorem preferential_dynamic_shape rs ba fuel n ts m ew w G w' :
  0 ≤ m → m + 1 ≤ n →
  generate_preferential_attachment_graph rs ba fuel n true ts m ew w
  = Ok G w' →
  number_of_edges G = m * n ∧
  (∀ u v, 0 ≤ u ≤ m → 0 ≤ v ≤ m → u ≠ v → is_Some (adj G !! (u, v))) ∧
  (∀ u v, is_Some (adj G !! (u, v)) →
     0 ≤ u < n ∧ 0 ≤ v < n ∧ ((u ≤ m ∧ v ≤ m) ∨ v < u)) ∧
  (ew = true → ∀ e d, adj G !! e = Some d → d = Some (VInt 1)).
Proof.
  intros Hm Hmn H. unfold generate_preferential_attachment_graph in H.
  unfold range2 in H.
  set (P := λ (e : Z * Z) (d : edge_data),
         ((e.1 ≤ m ∧ e.2 ≤ m) ∨ e.2 < e.1) ∧
         (ew = true → d = Some (VInt 1))).
  destruct (seed_clique_shape ew (m + 1) ltac:(lia)) as [Hcount Hlook].
  set (G0 := seed_clique ew (m + 1) _) in *.
  apply (forM_seqZ_inv
           (λ t G _, m + 1 ≤ t ∧ nodes G = range t ∧ within t G ∧
                     number_of_edges G = m * t ∧ edges_sat P G ∧
                     ∀ e, is_Some (adj G0 !! e) → is_Some (adj G !! e)))
    in H.
  - destruct H as (_ & _ & Hwithin & Hedges & HP & Hkeep).
    replace (m + 1 + Z.max 0 (n - (m + 1))) with n in * by lia.
    split; [done|]. split; [|split].
    + intros u v Hu Hv Hne. apply Hkeep. rewrite Hlook.
      rewrite decide_True; [done|]. rewrite !elem_of_range. lia.
    + intros u v [d Hd].
      destruct (Hwithin _ _ Hd) as [H1 H2]. destruct (HP _ _ Hd) as [H3 _].
      rewrite !elem_of_range in *. simpl in *. lia.
    + intros Hew e d Hd. by apply (HP _ _ Hd).
  - intros t G1 w1 G2 w2 Ht (Hle & Hnodes & Hwithin & Hedges & HP & Hkeep)
      Harr.
    assert (0 ≤ t) as Ht0 by lia.
    assert (∀ x, 0 ≤ x < t →
              P (t, x) (if ew then Some (VInt 1) else None)) as Hfresh
      by (intros x Hx; split; [right; simpl; lia|by destruct ew]).
    destruct (preferential_arrival_inv rs P _ _ _ _ _ _ _ _ _
                Ht0 Hnodes Hfresh HP Harr) as [HP' Hkeep'].
    split; [lia|]. split.
    { eapply preferential_arrival_nodes; [|done|done]. lia. }
    split.
    { eapply preferential_arrival_within; [|done|done|done]. lia. }
    split.
    { rewrite (preferential_arrival_count _ _ _ _ _ _ _ _ _ _ Hwithin Harr).
      lia. }
    split; [done|]. intros e He. by apply Hkeep', Hkeep.
  - split; [lia|]. split; [apply seed_clique_nodes, nodes_range|].
    split.
    { apply seed_clique_within, edges_sat_empty.
      by rewrite adj_add_nodes_from. }
    split; [rewrite Hcount; lia|]. split; [|done].
    intros [u v] d. rewrite Hlook. destruct (decide _) as [(Hu & Hv & _)|];
      [|done].
    intros [= <-]. rewrite !elem_of_range in *. split.
    + left. simpl. lia.
    + by intros ->.
Qed.

Lemma preferential_dynamic_shape_witness :
  ∃ G w',
    generate_preferential_attachment_graph zero_stream star_graph
      1 5 true 1 1 true blank = Ok G w' ∧
    number_of_edges G = 1 * 5 ∧
    is_Some (adj G !! (0, 1)) ∧ is_Some (adj G !! (1, 0)).
Proof.
  eexists _, _. split; [vm_compute; reflexivity|].
  assert (0 ≤ 1) as Hm by lia.
  assert (1 + 1 ≤ 5) as Hmn by lia.
  destruct (preferential_dynamic_shape zero_stream star_graph 1 5 1 1 true
              blank _ _ Hm Hmn eq_refl) as (Hcount & Hclique & _).
  split; [exact Hcount|].
  split; apply Hclique; lia.
Defined.

(** ** Static passes at the certain end *)

(** What every iteration establishes and no iteration undoes holds, at
    the end of the loop, for every element of the list. *)
Lemma forM_each {A S} (Q : A → S → Prop) (l : list A)
    (body : A → S → M S) :
  (∀ a a' s w s' w', a' ∈ l → body a' s w = Ok s' w' → Q a s → Q a s') →
  (∀ a s w s' w', a ∈ l → body a s w = Ok s' w' → Q a s') →
  ∀ s w s' w', forM l body s w = Ok s' w' → ∀ a, a ∈ l → Q a s'.
Proof.
  intros Hkeep Hdo. 
  enough (∀ l', (∀ a, a ∈ l' → a ∈ l) →
            ∀ s w s' w', forM l' body s w = Ok s' w' →
              (∀ a, Q a s → Q a s') ∧ ∀ a, a ∈ l' → Q a s') as H.
  { intros s w s' w' Hrun. by apply (H l (λ _ Ha, Ha) s w s' w'). }
  induction l' as [|b l' IH]; intros Hsub s w s' w' Hrun; simpl in Hrun.
  - inv_run Hrun. split; [done|]. intros a Ha. by apply elem_of_nil in Ha.
  - apply bind_Ok in Hrun as (s1 & w1 & H1 & H2).
    destruct (IH (λ a Ha, Hsub a (list_elem_of_further _ _ _ Ha))
                _ _ _ _ H2) as [Hk Hall].
    assert (b ∈ l) as Hb by (apply Hsub; by left).
    split.
    + intros a Ha. apply Hk. by eapply Hkeep.
    + intros a [->|Ha]%elem_of_cons; [|by apply Hall].
      apply Hk. by eapply Hdo.
Qed.

Lemma Qltb_certain u p : (u < 1)%Q → (1 <= p)%Q → Qltb u p = true.
Proof.
  intros Hu Hp. unfold Qltb. apply negb_true_iff.
  destruct (Qle_bool p u) eqn:E; [|done].
  apply Qle_bool_iff in E. exfalso. apply (Qlt_irrefl u).
  eapply Qlt_le_trans; [exact Hu|]. by eapply Qle_trans.
Qed.

Lemma random_pair_keeps rs p ew i j G w G' w' :
  random_pair rs p ew i j G w = Ok G' w' →
  ∀ e, is_Some (adj G !! e) → is_Some (adj G' !! e).
Proof.
  intros [->|(kw & _ & _ & ->)]%random_pair_cases e He; [done|]. simpl.
  destruct (decide (e = (i, j))) as [->|Hne];
    [by rewrite lookup_insert_eq|by rewrite lookup_insert_ne].
Qed.

Lemma random_pair_certain rs p ew i j G w G' w' :
  valid_stream rs → (1 <= p)%Q → i ≠ j →
  random_pair rs p ew i j G w = Ok G' w' → is_Some (adj G' !! (i, j)).
Proof.
  intros Hv Hp Hne. unfold random_pair. rewrite decide_False by done.
  intros H. apply bind_Ok in H as (u & w1 & [-> _]%random_Ok & H).
  rewrite Qltb_certain in H; [|apply Hv|done].
  destruct ew; inv_run H; simpl; by rewrite lookup_insert_eq.
Qed.

(** X9. In static mode with a link probability of 1 or more, the random
    generator returns the complete directed graph: a pair is an edge
    exactly when it joins two distinct nodes of the population. *)
Theorem random_static_complete rs n ts p ew w G w' :
  valid_stream rs → (1 <= p)%Q →
  generate_random_graph rs n false ts p ew w = Ok G w' →
  ∀ i j, is_Some (adj G !! (i, j)) ↔ 0 ≤ i < n ∧ 0 ≤ j < n ∧ i ≠ j.
Proof.
  intros Hv Hp Hrun i j. split.
  - intros [d Hd].
    destruct (random_graph_within _ _ _ _ _ _ _ _ _ Hrun _ _ Hd) as [Hi Hj].
    rewrite !elem_of_range in *. do 2 (split; [done|]). intros ->.
    assert (edges_sat (λ e _, e.1 ≠ e.2) G) as Hloop.
    { eapply random_graph_sat; [done| |exact Hrun]. by intros ????. }
    by destruct (Hloop _ _ Hd).
  - intros (Hi & Hj & Hne). unfold generate_random_graph in Hrun.
    apply bind_Ok in Hrun as (Gf & wf & Hloop & H). inv_run H.
    set (Q := λ (i : Z) (G : DiGraph),
           ∀ j, j ∈ range n → i ≠ j → is_Some (adj G !! (i, j))).
    enough (Q i Gf) as HQ by (apply HQ; [by apply elem_of_range|done]).
    refine (forM_each Q _ _ _ _ _ _ _ _ Hloop i _);
      [| |by apply elem_of_range].
    + intros a a' G1 w1 G2 w2 _ Hrow HQ k Hk Hak.
      apply (forM_inv (λ G _, is_Some (adj G !! (a, k)))) in Hrow;
        [done| |by apply HQ].
      intros b G3 w3 G4 w4 _ H3 Hpair.
      by eapply random_pair_keeps.
    + intros a G1 w1 G2 w2 Ha Hrow k Hk Hak.
      set (R := λ (k : Z) (G : DiGraph),
             a ≠ k → is_Some (adj G !! (a, k))).
      enough (R k G2) as HR by (by apply HR).
      refine (forM_each R _ _ _ _ _ _ _ _ Hrow k Hk).
      * intros b b' G3 w3 G4 w4 _ Hpair HR Hab.
        eapply random_pair_keeps; [exact Hpair|by apply HR].
      * intros b G3 w3 G4 w4 _ Hpair Hab.
        by eapply random_pair_certain.
Qed.

Lemma random_static_complete_witness :
  ∃ G w',
    generate_random_graph zero_stream 3 false 1 1%Q true blank = Ok G w' ∧
    number_of_edges G = 6 ∧
    ∀ i j, is_Some (adj G !! (i, j)) ↔ 0 ≤ i < 3 ∧ 0 ≤ j < 3 ∧ i ≠ j.
Proof.
  eexists _, _. split; [vm_compute; reflexivity|].
  split; [vm_compute; reflexivity|].
  eapply (random_static_complete zero_stream 3 1 1%Q true blank _ _
            zero_stream_valid).
  - vm_compute. discriminate.
  - vm_compute. reflexivity.
Defined.

Lemma homophily_pair_keeps rs groups p_in p_out ew i j G w G' w' :
  homophily_pair rs groups p_in p_out ew i j G w = Ok G' w' →
  ∀ e, is_Some (adj G !! e) → is_Some (adj G' !! e).
Proof.
  intros [->|Hadd]%homophily_pair_cases e He; [done|].
  destruct Hadd as (gi & gj & u & a & _ & _ & _ & _ & _ & _ & ->). simpl.
  destruct (decide (e = (i, j))) as [->|Hne];
    [by rewrite lookup_insert_eq|by rewrite lookup_insert_ne].
Qed.

Lemma homophily_pair_certain rs n g groups p_in p_out ew i j G w G' w' :
  valid_stream rs → (1 <= p_in)%Q → groups_spec n g groups →
  i ∈ range n → j ∈ range n → i ≠ j → i `mod` g = j `mod` g →
  homophily_pair rs groups p_in p_out ew i j G w = Ok G' w' →
  is_Some (adj G' !! (i, j)).
Proof.
  intros Hv Hp Hs Hi Hj Hne Hg. unfold homophily_pair.
  rewrite decide_False by done. intros H.
  apply bind_Ok in H as (gi & w1 & Hgi & H).
  rewrite (getitem_spec n g) in Hgi by done. injection Hgi as <- <-.
  apply bind_Ok in H as (gj & w2 & Hgj & H).
  rewrite (getitem_spec n g) in Hgj by done. injection Hgj as <- <-.
  rewrite decide_True in H by done.
  apply bind_Ok in H as (u & w3 & [-> _]%random_Ok & H).
  rewrite Qltb_certain in H; [|apply Hv|done].
  apply bind_Ok in H as (a & w4 & _ & H). inv_run H. simpl.
  by rewrite lookup_insert_eq.
Qed.

(** X10. In static mode with [p_in >= 1] and [p_out = 0] the homophily
    generator returns exactly the within-group graph: a pair is an edge
    exactly when it joins two distinct nodes of the population that have
    the same residue modulo [homophily_groups]. *)
Theorem homophily_static_exact rs n ts g p_in p_out ew w G w' :
  valid_stream rs → (1 <= p_in)%Q → (p_out == 0)%Q →
  generate_homophily_graph rs n false ts g p_in p_out ew w = Ok G w' →
  ∀ i j, is_Some (adj G !! (i, j)) ↔
         0 ≤ i < n ∧ 0 ≤ j < n ∧ i ≠ j ∧ i `mod` g = j `mod` g.
Proof.
  intros Hv Hin Hout Hrun i j. split.
  - intros Hedge.
    destruct (homophily_static_linked rs
                (λ i j, i ∈ range n ∧ j ∈ range n ∧ i ≠ j
                        ∧ i `mod` g = j `mod` g)
                n ts g p_in p_out ew w G w') as [_ HP]; [|done|].
    + intros a b u Hne Ha Hb [c ->]. destruct (decide _); [done|].
      rewrite Qltb_zero; [done|done|apply Hv].
    + destruct (HP i j Hedge) as (Hi & Hj & Hne & Hg).
      rewrite !elem_of_range in *. done.
  - intros (Hi & Hj & Hne & Hg). unfold generate_homophily_graph in Hrun.
    apply bind_Ok in Hrun as (groups & w0 & [-> Hs]%assign_groups_Ok & Hrun).
    apply bind_Ok in Hrun as (Gf & wf & Hloop & H). inv_run H.
    set (Q := λ (i : Z) (G : DiGraph),
           ∀ j, j ∈ range n → i ≠ j → i `mod` g = j `mod` g →
                is_Some (adj G !! (i, j))).
    enough (Q i Gf) as HQ by (apply HQ; [by apply elem_of_range|done..]).
    refine (forM_each Q _ _ _ _ _ _ _ _ Hloop i _);
      [| |by apply elem_of_range].
    + intros a a' G1 w1 G2 w2 _ Hrow HQ k Hk Hak Hgk.
      apply (forM_inv (λ G _, is_Some (adj G !! (a, k)))) in Hrow;
        [done| |by apply HQ].
      intros b G3 w3 G4 w4 _ H3 Hpair.
      by eapply homophily_pair_keeps.
    + intros a G1 w1 G2 w2 Ha Hrow k Hk Hak Hgk.
      set (R := λ (k : Z) (G : DiGraph),
             k ∈ range n → a ≠ k → a `mod` g = k `mod` g →
             is_Some (adj G !! (a, k))).
      enough (R k G2) as HR by (by apply HR).
      refine (forM_each R _ _ _ _ _ _ _ _ Hrow k Hk).
      * intros b b' G3 w3 G4 w4 _ Hpair HR Hb Hab Hgb.
        eapply homophily_pair_keeps; [exact Hpair|by apply HR].
      * intros b G3 w3 G4 w4 _ Hpair Hb Hab Hgb.
        by eapply (homophily_pair_certain rs n g).
Qed.

Lemma homophily_static_exact_witness :
  ∃ G w',
    generate_homophily_graph zero_stream 4 false 1 2 1%Q 0%Q false blank
    = Ok G w' ∧
    number_of_edges G = 4 ∧
    ∀ i j, is_Some (adj G !! (i, j)) ↔
           0 ≤ i < 4 ∧ 0 ≤ j < 4 ∧ i ≠ j ∧ i `mod` 2 = j `mod` 2.
Proof.
  eexists _, _. split; [vm_compute; reflexivity|].
  split; [vm_compute; reflexivity|].
  eapply (homophily_static_exact zero_stream 4 1 2 1%Q 0%Q false blank _ _
            zero_stream_valid).
  - vm_compute. discriminate.
  - reflexivity.
  - vm_compute. reflexivity.
Defined.

(** ** Static preferential attachment mirrors the base graph *)

Lemma sample_weight_total rs ew w :
  ∃ a, sample_weight rs ew w
       = Ok a (set_cursor (cursor w + (if ew then 1 else 0))%nat w).
Proof.
  unfold sample_weight. destruct ew.
  - eexists. unfold bind, random, lift, rand_random, ret. simpl.
    do 2 f_equal. lia.
  - eexists. unfold ret. f_equal. rewrite Nat.add_0_r.
    by rewrite set_cursor_id.
Qed.

Lemma mirror_loop rs ew (l : list (Z * Z)) G w :
  ∃ G',
    forM l (λ '(u, v) G,
              a <- sample_weight rs ew ;;
              let G := add_edge u v (Some a) G in
              b <- sample_weight rs ew ;;
              ret (add_edge v u (Some b) G)) G w
    = Ok G' (set_cursor (cursor w
                         + (if ew then 2 * length l else 0))%nat w) ∧
    ∀ u v, is_Some (adj G' !! (u, v)) ↔
           is_Some (adj G !! (u, v)) ∨ (u, v) ∈ l ∨ (v, u) ∈ l.
Proof.
  revert G w. induction l as [|[a b] l IH]; intros G w.
  - exists G. simpl. split.
    + unfold ret. f_equal. destruct ew; rewrite Nat.add_0_r;
        by rewrite set_cursor_id.
    + intros u v. split; [by left|].
      intros [?|[H|H]]; [done|by apply elem_of_nil in H..].
  - cbn [forM]. unfold bind at 1. unfold bind at 1.
    destruct (sample_weight_total rs ew w) as [x ->].
    unfold bind at 1.
    destruct (sample_weight_total rs ew
                (set_cursor (cursor w + (if ew then 1 else 0))%nat w))
      as [y ->].
    unfold ret at 1.
    destruct (IH (add_edge b a (Some y) (add_edge a b (Some x) G))
                (set_cursor
                   (cursor (set_cursor
                              (cursor w + (if ew then 1 else 0))%nat w)
                    + (if ew then 1 else 0))%nat
                   (set_cursor (cursor w + (if ew then 1 else 0))%nat w)))
      as (G' & HIH & Hedges).
    exists G'. split.
    + etransitivity; [exact HIH|].
      f_equal. unfold set_cursor. simpl. f_equal.
      destruct ew; cbn [length]; lia.
    + intros u v. rewrite Hedges. simpl.
      rewrite !elem_of_cons.
      assert (is_Some (<[(b, a):=Some y]> (<[(a, b):=Some x]> (adj G))
                       !! (u, v))
              ↔ is_Some (adj G !! (u, v)) ∨ (u, v) = (a, b)
                ∨ (v, u) = (a, b)) as ->; [|tauto].
      destruct (decide ((u, v) = (b, a))) as [[= -> ->]|H1].
      { rewrite lookup_insert_eq. split; [auto|by eexists]. }
      rewrite (lookup_insert_ne _ (b, a)) by done.
      destruct (decide ((u, v) = (a, b))) as [[= -> ->]|H2].
      { rewrite lookup_insert_eq. split; [auto|by eexists]. }
      rewrite lookup_insert_ne by done.
      split; [auto|]. intros [?|[?|[= -> ->]]]; done.
Qed.

(** X11. Whenever the library's base generator returns a graph, static
    preferential attachment returns too, with the nodes of the base graph
    and both directions of each of its edges, and nothing else: a pair is
    an edge exactly when it or its reverse is a base edge.  In weighted
    mode it consumes two draws per base edge after those of the library,
    one for each direction; in unweighted mode none. *)
Theorem preferential_static_mirrors rs ba fuel n ts m ew w B w1 :
  ba n m w = Ok B w1 →
  ∃ G w',
    generate_preferential_attachment_graph rs ba fuel n false ts m ew w
    = Ok G w' ∧
    cursor w' = (cursor w1
                 + (if ew then 2 * length (g_edges B) else 0))%nat ∧
    ∀ u v, is_Some (adj G !! (u, v)) ↔
           (u, v) ∈ g_edges B ∨ (v, u) ∈ g_edges B.
Proof.
  intros HB. unfold generate_preferential_attachment_graph.
  destruct (mirror_loop rs ew (g_edges B)
              (add_nodes_from (g_nodes B) empty_graph) w1)
    as (G & Hloop & Hedges).
  eexists G, _. split; [|split].
  - unfold bind at 1. rewrite HB. unfold bind at 1.
    cbv zeta in Hloop. rewrite Hloop. reflexivity.
  - reflexivity.
  - intros u v. rewrite Hedges, adj_add_nodes_from. simpl.
    rewrite lookup_empty. split; [|auto].
    intros [[? [=]]|?]; done.
Qed.

Lemma preferential_static_mirrors_witness :
  ∃ G w',
    generate_preferential_attachment_graph zero_stream star_graph 0 3 false
      1 1 true blank = Ok G w' ∧
    cursor w' = 4%nat ∧
    (is_Some (adj G !! (2, 0)) ↔ (2, 0) ∈ [(0, 1); (0, 2)]
                                 ∨ (0, 2) ∈ [(0, 1); (0, 2)]).
Proof.
  destruct (preferential_static_mirrors zero_stream star_graph 0 3 1 1 true
              blank (mkGraph (range 3) [(0, 1); (0, 2)]) blank eq_refl)
    as (G & w' & Hrun & Hcursor & Hedges).
  exists G, w'. split; [exact Hrun|]. split; [exact Hcursor|].
  apply Hedges.
Defined.

(** ** What main leaves behind *)



(** X13. With the homophily strategy, [homophily_groups] equal to [0] and
    a positive population, [main] ends with the [ZeroDivisionError] of the
    group assignment, in the world it was started in: no draw consumed,
    nothing printed, no file written. *)
Theorem main_zero_groups rs ba fuel cfg w :
  strategy_of cfg = "homophily" →
  get (cfg_homophily_groups cfg) 2 = 0 →
  0 < get (cfg_num_agents cfg) 100 →
  main rs ba fuel cfg w = Raise ZeroDivisionError w.
Proof.
  unfold strategy_of, main. intros -> -> Hn. simpl.
  unfold bind at 1, generate_homophily_graph, assign_groups, range, range2.
  rewrite seqZ_cons by lia. reflexivity.
Qed.

Lemma main_zero_groups_witness :
  main zero_stream star_graph 0 no_groups blank
  = Raise ZeroDivisionError blank.
Proof.
  apply (main_zero_groups zero_stream star_graph 0 no_groups blank);
    [reflexivity|reflexivity|reflexivity].
Defined.
